(** * Financial dashboard: indicator engine and portfolio analytics

    A shallow embedding of [financial_dashboard.py].

    Numbers.  The program computes on IEEE binary64 values through pandas.
    The embedding keeps the three special values the program can produce
    (not-a-number and the two infinities) and their arithmetic, and
    idealises the finite values as exact rationals: rounding, the overflow
    of an arithmetic operation and the sign of zero are outside the model.
    The overflow of [float] on a literal too large for a binary64 value is
    modelled.  The square root used by the sample standard deviation is not
    rational; it is a parameter [sqrtQ] of the definitions that need it.

    Text.  Strings are [string]s of 8-bit characters; the embedding covers
    7-bit ASCII input, on which [str.upper] and [str.strip] are modelled
    exactly. *)

From Stdlib Require Import String Ascii.
From Stdlib Require Import QArith Qabs Lqa Lia ZArith Arith Bool List Sorted.
Import ListNotations.

Open Scope Q_scope.

(** ** Extended numbers *)

Inductive fl : Type :=
| Fin (q : Q)
| PInf
| NInf
| NaN.

Module Fl.

Definition isnan (a : fl) : bool :=
  match a with NaN => true | _ => false end.

Definition notna (a : fl) : bool := negb (isnan a).

(** Equality of values: rational equality on the finite ones. *)
Definition eq (a b : fl) : Prop :=
  match a, b with
  | Fin x, Fin y => x == y
  | PInf, PInf | NInf, NInf | NaN, NaN => True
  | _, _ => False
  end.

Definition neg (a : fl) : fl :=
  match a with
  | Fin x => Fin (- x)
  | PInf => NInf
  | NInf => PInf
  | NaN => NaN
  end.

Definition add (a b : fl) : fl :=
  match a, b with
  | NaN, _ | _, NaN => NaN
  | Fin x, Fin y => Fin (x + y)
  | PInf, NInf | NInf, PInf => NaN
  | PInf, _ | _, PInf => PInf
  | NInf, _ | _, NInf => NInf
  end.

Definition sub (a b : fl) : fl := add a (neg b).

(** An infinity with the sign of [c] (the comparison of a factor with 0);
    a zero factor gives not-a-number. *)
Definition signed_inf (c : comparison) (positive : bool) : fl :=
  match c with
  | Eq => NaN
  | Gt => if positive then PInf else NInf
  | Lt => if positive then NInf else PInf
  end.

Definition mul (a b : fl) : fl :=
  match a, b with
  | NaN, _ | _, NaN => NaN
  | Fin x, Fin y => Fin (x * y)
  | Fin x, PInf | PInf, Fin x => signed_inf (x ?= 0) true
  | Fin x, NInf | NInf, Fin x => signed_inf (x ?= 0) false
  | PInf, PInf | NInf, NInf => PInf
  | PInf, NInf | NInf, PInf => NInf
  end.

(** Division never fails: a nonzero number over zero is an infinity, zero
    over zero is not-a-number, a number over an infinity is zero. *)
Definition div (a b : fl) : fl :=
  match a, b with
  | NaN, _ | _, NaN => NaN
  | Fin x, Fin y =>
      match y ?= 0 with
      | Eq => match x ?= 0 with Eq => NaN | Gt => PInf | Lt => NInf end
      | _ => Fin (x / y)
      end
  | Fin _, PInf | Fin _, NInf => Fin 0
  | PInf, Fin y => match y ?= 0 with Lt => NInf | _ => PInf end
  | NInf, Fin y => match y ?= 0 with Lt => PInf | _ => NInf end
  | _, _ => NaN
  end.

(** Comparisons: every comparison with not-a-number is false, except
    [!=], which is true. *)
Definition compare (a b : fl) : option comparison :=
  match a, b with
  | NaN, _ | _, NaN => None
  | Fin x, Fin y => Some (x ?= y)
  | PInf, PInf | NInf, NInf => Some Eq
  | PInf, _ | _, NInf => Some Gt
  | _, PInf | NInf, _ => Some Lt
  end.

Definition gtb (a b : fl) : bool :=
  match compare a b with Some Gt => true | _ => false end.

Definition ltb (a b : fl) : bool :=
  match compare a b with Some Lt => true | _ => false end.

Definition eqb (a b : fl) : bool :=
  match compare a b with Some Eq => true | _ => false end.

Definition neb (a b : fl) : bool := negb (eqb a b).

Definition of_nat (n : nat) : fl := Fin (inject_Z (Z.of_nat n)).

(** Left-to-right sum, as an accumulator loop computes it. *)
Definition sum (xs : list fl) : fl := fold_left add xs (Fin 0).

End Fl.

Infix "=f=" := Fl.eq (at level 70, no associativity).

(** ** Series operations (pandas) *)

Definition series := list fl.

(** The values without the missing ones. *)
Definition observations (xs : series) : series := filter Fl.notna xs.

(** [Series.mean()]: missing values are skipped; no observation gives
    not-a-number. *)
Definition mean (xs : series) : fl :=
  let obs := observations xs in
  Fl.div (Fl.sum obs) (Fl.of_nat (length obs)).

(** Element-wise binary operation on two series over the same index. *)
Fixpoint zip_with (f : fl -> fl -> fl) (xs ys : series) : series :=
  match xs, ys with
  | x :: xs', y :: ys' => f x y :: zip_with f xs' ys'
  | _, _ => []
  end.

(** The trailing window of [w] positions ending at position [i] inclusive,
    cut at the start of the series. *)
Definition window (w i : nat) (xs : series) : series :=
  skipn (i + 1 - w) (firstn (i + 1) xs).

(** The values a window aggregation works on: pandas turns the infinite
    values of the series into missing ones first. *)
Definition prep_values (xs : series) : series :=
  map (fun x => match x with PInf | NInf => NaN | _ => x end) xs.

(** [Series.rolling(w).agg()]: [min_periods] defaults to the window size,
    so a position whose window holds fewer than [w] observations is
    not-a-number. *)
Definition rolling (w : nat) (agg : series -> fl) (xs : series) : series :=
  map (fun i =>
         let obs := observations (window w i (prep_values xs)) in
         if (length obs <? w)%nat then NaN else agg obs)
      (seq 0 (length xs)).

Definition rolling_mean (w : nat) : series -> series := rolling w mean.

(** [Series.diff()]: difference with the previous row, the first row is
    not-a-number. *)
Definition diff (xs : series) : series :=
  match xs with
  | [] => []
  | _ :: t => NaN :: zip_with Fl.sub t xs
  end.

(** [Series.where(cond, other)]: keep the value where the condition holds,
    else [other]. *)
Definition where_ (cond : fl -> bool) (other : fl) (xs : series) : series :=
  map (fun x => if cond x then x else other) xs.

(** The smoothing factor of a span: the centre of mass is [(span - 1) / 2]
    and the factor [1 / (1 + centre of mass)]. *)
Definition ewm_alpha (span : Q) : Q := 1 / (1 + (span - 1) / 2).

(** [Series.ewm(span, adjust=False).mean()], after the loop of pandas'
    aggregation: [weighted] is the running average, [old_wt] the weight it
    carries into the next update.  A missing value leaves the average as it
    is and ages its weight; an observation equal to the average leaves it
    unchanged. *)
Definition ewm_step (alpha : Q) (weighted : fl) (old_wt : Q) (cur : fl)
  : fl * Q :=
  if Fl.isnan weighted then
    (if Fl.isnan cur then weighted else cur, old_wt)
  else
    let old_wt1 := old_wt * (1 - alpha) in
    if Fl.isnan cur then (weighted, old_wt1)
    else if Fl.neb weighted cur then
      (Fl.div (Fl.add (Fl.mul (Fin old_wt1) weighted) (Fl.mul (Fin alpha) cur))
              (Fin (old_wt1 + alpha)), 1)
    else (weighted, 1).

Fixpoint ewm_loop (alpha : Q) (weighted : fl) (old_wt : Q) (xs : series)
  : series :=
  match xs with
  | [] => []
  | cur :: t =>
      let '(weighted', old_wt') := ewm_step alpha weighted old_wt cur in
      weighted' :: ewm_loop alpha weighted' old_wt' t
  end.

(** The first value seeds the average; infinite values count as missing,
    as in every window aggregation. *)
Definition ewm_mean (span : Q) (xs : series) : series :=
  match prep_values xs with
  | [] => []
  | x :: t => x :: ewm_loop (ewm_alpha span) x 1 t
  end.

Section WithSqrt.

(** The square root on the non-negative rationals. *)
Variable sqrtQ : Q -> Q.

Definition fsqrt (a : fl) : fl :=
  match a with
  | Fin x => match x ?= 0 with Lt => NaN | _ => Fin (sqrtQ x) end
  | PInf => PInf
  | NInf | NaN => NaN
  end.

(** [Series.std()]: sample standard deviation (n-1 denominator) of the
    observations. *)
Definition std (xs : series) : fl :=
  let obs := observations xs in
  let m := mean obs in
  let sq := map (fun x => Fl.mul (Fl.sub x m) (Fl.sub x m)) obs in
  fsqrt (Fl.div (Fl.sum sq) (Fl.of_nat (length obs - 1))).

Definition rolling_std (w : nat) : series -> series := rolling w std.

(** ** The indicator engine: [fetch_data] *)

Record indicators : Type := {
  SMA_50 : series;
  SMA_200 : series;
  EMA_20 : series;
  Upper_BB : series;
  Lower_BB : series;
  RSI : series
}.

Definition rsi_delta (close : series) : series := diff close.

Definition rsi_gain (close : series) : series :=
  let delta := rsi_delta close in
  rolling_mean 14 (where_ (fun d => Fl.gtb d (Fin 0)) (Fin 0) delta).

Definition rsi_loss (close : series) : series :=
  let delta := rsi_delta close in
  rolling_mean 14
    (map Fl.neg (where_ (fun d => Fl.ltb d (Fin 0)) (Fin 0) delta)).

Definition rsi_of_rs (rs : fl) : fl :=
  Fl.sub (Fin 100) (Fl.div (Fin 100) (Fl.add (Fin 1) rs)).

(** The columns [fetch_data] adds to the downloaded bars, as functions of
    the [Close] column. *)
Definition fetch_data (close : series) : indicators :=
  let sma50 := rolling_mean 50 close in
  let sma200 := rolling_mean 200 close in
  let ema20 := ewm_mean 20 close in
  let rolling_std20 := rolling_std 20 close in
  let two_std := map (Fl.mul (Fin 2)) rolling_std20 in
  let gain := rsi_gain close in
  let loss := rsi_loss close in
  let RS := zip_with Fl.div gain loss in
  {| SMA_50 := sma50;
     SMA_200 := sma200;
     EMA_20 := ema20;
     Upper_BB := zip_with Fl.add ema20 two_std;
     Lower_BB := zip_with Fl.sub ema20 two_std;
     RSI := map rsi_of_rs RS |}.

End WithSqrt.

(** ** Text operations (Python [str]) *)

Definition chars := list ascii.

(** [str.isspace] on one ASCII character. *)
Definition is_space (c : ascii) : bool :=
  let n := nat_of_ascii c in
  ((9 <=? n) && (n <=? 13) || (28 <=? n) && (n <=? 32))%nat.

Fixpoint lstrip (cs : chars) : chars :=
  match cs with
  | c :: t => if is_space c then lstrip t else cs
  | [] => []
  end.

Definition rstrip (cs : chars) : chars := rev (lstrip (rev cs)).

(** [str.strip()] *)
Definition strip (s : string) : string :=
  string_of_list_ascii (rstrip (lstrip (list_ascii_of_string s))).

Definition upper_char (c : ascii) : ascii :=
  let n := nat_of_ascii c in
  if ((97 <=? n) && (n <=? 122))%nat then ascii_of_nat (n - 32) else c.

Definition lower_char (c : ascii) : ascii :=
  let n := nat_of_ascii c in
  if ((65 <=? n) && (n <=? 90))%nat then ascii_of_nat (n + 32) else c.

(** [str.upper()] *)
Definition upper (s : string) : string :=
  string_of_list_ascii (map upper_char (list_ascii_of_string s)).

(** [str.split(sep)] for a one-character separator: the pieces between
    the separators, empty pieces included; never the empty list. *)
Fixpoint split (sep : ascii) (s : string) : list string :=
  match s with
  | EmptyString => [EmptyString]
  | String c t =>
      if Ascii.eqb c sep then EmptyString :: split sep t
      else match split sep t with
           | h :: r => String c h :: r
           | [] => [String c EmptyString]
           end
  end.

(** *** [float(str)]

    The literal grammar of Python's [float]: surrounding white space, an
    optional sign, then [inf], [infinity] or [nan] in any case, or a decimal
    number with an optional fraction and exponent, where single underscores
    may separate digits. *)

Definition digit_of (c : ascii) : option Z :=
  let n := nat_of_ascii c in
  if ((48 <=? n) && (n <=? 57))%nat then Some (Z.of_nat (n - 48)) else None.

(** Digits after a first digit: value so far, number of digits so far. *)
Fixpoint digit_run (acc : Z) (n : nat) (cs : chars) : Z * nat * chars :=
  match cs with
  | [] => (acc, n, [])
  | c :: t =>
      match digit_of c with
      | Some d => digit_run (10 * acc + d)%Z (S n) t
      | None =>
          if Ascii.eqb c "_" then
            match t with
            | c' :: t' =>
                match digit_of c' with
                | Some d => digit_run (10 * acc + d)%Z (S n) t'
                | None => (acc, n, cs)
                end
            | [] => (acc, n, cs)
            end
          else (acc, n, cs)
      end
  end.

Definition digitpart (cs : chars) : option (Z * nat * chars) :=
  match cs with
  | c :: t =>
      match digit_of c with
      | Some d => Some (digit_run d 1 t)
      | None => None
      end
  | [] => None
  end.

(** Mantissa: value and the rest of the input. *)
Definition mantissa (cs : chars) : option (Q * chars) :=
  let fraction (ip : Z) (rest : chars) : Q * chars :=
    match digitpart rest with
    | Some (fp, nf, rest') =>
        (inject_Z ip + inject_Z fp / inject_Z (10 ^ Z.of_nat nf), rest')
    | None => (inject_Z ip, rest)
    end in
  match digitpart cs with
  | Some (ip, _, rest) =>
      match rest with
      | c :: rest' =>
          if Ascii.eqb c "." then Some (fraction ip rest')
          else Some (inject_Z ip, rest)
      | [] => Some (inject_Z ip, [])
      end
  | None =>
      match cs with
      | c :: rest =>
          if Ascii.eqb c "." then
            match digitpart rest with
            | Some _ => Some (fraction 0%Z rest)
            | None => None
            end
          else None
      | [] => None
      end
  end.

(** Exponent: its value, when the whole rest of the input is an exponent
    (or empty). *)
Definition exponent (cs : chars) : option Z :=
  match cs with
  | [] => Some 0%Z
  | c :: rest =>
      if Ascii.eqb (lower_char c) "e" then
        let '(neg, rest1) :=
          match rest with
          | s :: r =>
              if Ascii.eqb s "-" then (true, r)
              else if Ascii.eqb s "+" then (false, r)
              else (false, rest)
          | [] => (false, rest)
          end in
        match digitpart rest1 with
        | Some (e, _, []) => Some (if neg then (- e)%Z else e)
        | _ => None
        end
      else None
  end.

Definition float_number (cs : chars) : option Q :=
  match mantissa cs with
  | Some (m, rest) =>
      match exponent rest with
      | Some e => Some (m * inject_Z 10 ^ e)
      | None => None
      end
  | None => None
  end.

(** The least magnitude that [float] rounds to infinity: half a unit in
    the last place above the largest binary64 value,
    [2^1024 - 2^970]. *)
Definition float_overflow : Q :=
  Eval vm_compute in inject_Z (2 ^ 1024 - 2 ^ 970).

(** The value [float] gives to an unsigned decimal number: infinite from
    [float_overflow] on. *)
Definition float_of_decimal (v : Q) : fl :=
  if Qle_bool float_overflow v then PInf else Fin v.

Definition abs_float_value (cs : chars) : option fl :=
  let word := string_of_list_ascii (map lower_char cs) in
  if (String.eqb word "inf" || String.eqb word "infinity")%bool then Some PInf
  else if String.eqb word "nan" then Some NaN
  else option_map float_of_decimal (float_number cs).

(** [float(s)]: [None] stands for the [ValueError] it raises. *)
Definition py_float (s : string) : option fl :=
  match list_ascii_of_string (strip s) with
  | c :: rest =>
      if Ascii.eqb c "-" then option_map Fl.neg (abs_float_value rest)
      else if Ascii.eqb c "+" then abs_float_value rest
      else abs_float_value (c :: rest)
  | [] => None
  end.

(** ** The allocation map: a Python [dict]

    A [dict] keeps its keys in insertion order; assigning to a key that is
    present replaces the value in place. *)

Definition dict (V : Type) : Type := list (string * V).

Fixpoint dict_set {V : Type} (d : dict V) (k : string) (v : V) : dict V :=
  match d with
  | [] => [(k, v)]
  | (k', v') :: r =>
      if String.eqb k' k then (k', v) :: r else (k', v') :: dict_set r k v
  end.

Fixpoint dict_get {V : Type} (d : dict V) (k : string) : option V :=
  match d with
  | [] => None
  | (k', v') :: r => if String.eqb k' k then Some v' else dict_get r k
  end.

Definition keys {V : Type} (d : dict V) : list string := map fst d.

(** The body of the [try]: [None] stands for any exception raised by the
    unpacking of the split or by [float]. *)
Definition parse_item (item : string) : option (string * fl) :=
  match split ":" item with
  | [t; p] =>
      match py_float (strip p) with
      | Some v => Some (upper (strip t), Fl.div v (Fin 100))
      | None => None
      end
  | _ => None
  end.

(** One turn of the parsing loop: [except: pass] leaves the map as it is. *)
Definition alloc_step (alloc_dict : dict fl) (item : string) : dict fl :=
  match parse_item item with
  | Some (k, v) => dict_set alloc_dict k v
  | None => alloc_dict
  end.

(** [alloc_dict] after the loop over [portfolio_allocations.split(",")]. *)
Definition parse_allocations (portfolio_allocations : string) : dict fl :=
  fold_left alloc_step (split "," portfolio_allocations) [].

(** The entries the loop passes over. *)
Definition skipped (portfolio_allocations : string) : list string :=
  filter (fun item => match parse_item item with Some _ => false | None => true end)
         (split "," portfolio_allocations).

(** ** The portfolio analytics engine: [portfolio_performance] *)

(** Dates, in any strictly increasing numbering of the trading days. *)
Definition date := Z.

(** The [Close] column of one download: closes by date. *)
Definition price_series := list (date * fl).

(** A [DataFrame]: a date index and named columns over it, in order. *)
Record frame : Type := {
  index : list date;
  columns : dict series
}.

Definition empty_frame : frame := {| index := []; columns := [] |}.

(** The value of a series at a date; not-a-number where it has none. *)
Definition value_at (s : price_series) (d : date) : fl :=
  match find (fun p => (fst p =? d)%Z) s with
  | Some p => snd p
  | None => NaN
  end.

Definition reindex (s : price_series) (idx : list date) : series :=
  map (value_at s) idx.

(** [prices[t] = s]: a frame whose index is still empty takes the index of
    a non-empty series; otherwise the series is aligned to the index the
    frame has: its dates outside that index are left out, the dates it
    lacks are not-a-number.  The series have distinct dates: pandas
    refuses to align a series with a repeated date. *)
Definition set_column (prices : frame) (t : string) (s : price_series)
  : frame :=
  match index prices, s with
  | [], _ :: _ =>
      let idx := map fst s in
      {| index := idx;
         columns :=
           dict_set (map (fun c => (fst c, reindex [] idx)) (columns prices))
                    t (map snd s) |}
  | _, _ =>
      {| index := index prices;
         columns := dict_set (columns prices) t (reindex s (index prices)) |}
  end.

(** [fillna(method='ffill')] on one column: a missing value takes the last
    value before it; with none before it, it stays missing. *)
Fixpoint ffill_from (last : fl) (xs : series) : series :=
  match xs with
  | [] => []
  | x :: t =>
      let v := if Fl.isnan x then last else x in
      v :: ffill_from v t
  end.

Definition ffill (xs : series) : series := ffill_from NaN xs.

(** [pct_change()] on one column: the relative change from the previous
    row; the first row is not-a-number. *)
Definition pct_change (xs : series) : series :=
  match xs with
  | [] => []
  | _ :: t =>
      NaN :: zip_with (fun cur prev => Fl.sub (Fl.div cur prev) (Fin 1)) t xs
  end.

(** Row [i] of a list of columns. *)
Definition row (cols : list series) (i : nat) : list fl :=
  map (fun c => nth i c NaN) cols.

(** [dropna()]: the positions of the rows without a missing value. *)
Definition complete_rows (n : nat) (cols : list series) : list nat :=
  filter (fun i => forallb Fl.notna (row cols i)) (seq 0 n).

Definition take {A : Type} (d : A) (rows : list nat) (xs : list A) : list A :=
  map (fun i => nth i xs d) rows.

(** [(1 + r).cumprod()]: the running product; a missing value is passed
    over and stays missing in the result. *)
Fixpoint cumprod_from (acc : option fl) (xs : series) : series :=
  match xs with
  | [] => []
  | x :: t =>
      if Fl.isnan x then NaN :: cumprod_from acc t
      else
        let acc' := match acc with Some a => Fl.mul a x | None => x end in
        acc' :: cumprod_from (Some acc') t
  end.

Definition cumprod (xs : series) : series := cumprod_from None xs.

(** [prices] after the download loop; [download t] is the [Close] column
    the data supplier returns for ticker [t]. *)
Definition build_prices (download : string -> price_series)
  (alloc_dict : dict fl) : frame :=
  fold_left (fun prices t => set_column prices t (download t))
            (keys alloc_dict) empty_frame.

Definition filled_prices (download : string -> price_series)
  (alloc_dict : dict fl) : frame :=
  let prices := build_prices download alloc_dict in
  {| index := index prices;
     columns := map (fun c => (fst c, ffill (snd c))) (columns prices) |}.

(** [prices.pct_change()], before [dropna()]. *)
Definition raw_returns (download : string -> price_series)
  (alloc_dict : dict fl) : list series :=
  map (fun c => pct_change (snd c))
      (columns (filled_prices download alloc_dict)).

(** The positions of the index that [dropna()] keeps. *)
Definition kept_rows (download : string -> price_series)
  (alloc_dict : dict fl) : list nat :=
  complete_rows (length (index (build_prices download alloc_dict)))
                (raw_returns download alloc_dict).

(** [returns]: the kept dates and, column by column, the kept returns. *)
Definition returns_index (download : string -> price_series)
  (alloc_dict : dict fl) : list date :=
  take 0%Z (kept_rows download alloc_dict)
       (index (build_prices download alloc_dict)).

Definition returns (download : string -> price_series)
  (alloc_dict : dict fl) : list series :=
  map (take NaN (kept_rows download alloc_dict))
      (raw_returns download alloc_dict).

(** [returns.mul(weights, axis=1)]: column [j] times weight [j]. *)
Fixpoint mul_columns (cols : list series) (weights : list fl) : list series :=
  match cols, weights with
  | c :: cols', w :: weights' =>
      map (fun r => Fl.mul r w) c :: mul_columns cols' weights'
  | _, _ => []
  end.

(** [sum(axis=1)]: the sum of each row, missing values skipped. *)
Definition sum_rows (n : nat) (cols : list series) : series :=
  map (fun i => Fl.sum (observations (row cols i))) (seq 0 n).

Definition weights_of (alloc_dict : dict fl) : list fl :=
  map (fun t => match dict_get alloc_dict t with Some w => w | None => NaN end)
      (keys alloc_dict).

Definition portfolio_return_of (n : nat) (rets : list series)
  (alloc_dict : dict fl) : series :=
  sum_rows n (mul_columns rets (weights_of alloc_dict)).

Definition portfolio_return (download : string -> price_series)
  (alloc_dict : dict fl) : series :=
  portfolio_return_of (length (kept_rows download alloc_dict))
                      (returns download alloc_dict) alloc_dict.

Record metrics : Type := {
  average_daily_return : fl;
  volatility : fl;
  sharpe_ratio : fl
}.

Section PortfolioMetrics.

Variable sqrtQ : Q -> Q.

Definition metrics_of (portfolio_return : series) : metrics :=
  let m := mean portfolio_return in
  let s := std sqrtQ portfolio_return in
  {| average_daily_return := m;
     volatility := s;
     sharpe_ratio := if Fl.neb s (Fin 0) then Fl.div m s else Fin 0 |}.

Definition portfolio_performance (download : string -> price_series)
  (alloc_dict : dict fl) : list (date * fl) * metrics :=
  let portfolio_return := portfolio_return download alloc_dict in
  let cumulative := cumprod (map (Fl.add (Fin 1)) portfolio_return) in
  (combine (returns_index download alloc_dict) cumulative,
   metrics_of portfolio_return).

End PortfolioMetrics.

(** A rational approximation of the square root, to run the engine on
    examples: the integer square root at twelve decimal places. *)
Definition sqrt_approx (x : Q) : Q :=
  let scale := (10 ^ 24)%Z in
  inject_Z (Z.sqrt (Qnum x * scale / Z.pos (Qden x))) / inject_Z (10 ^ 12).

(** ** Reference notions used in the statements *)

(** The number a finite value stands for. *)
Definition to_Q (a : fl) : Q :=
  match a with Fin q => q | _ => 0 end.

(** [g close[i] + g close[i-1] + ...], [n] terms going back from bar [i]. *)
Fixpoint trailing_sum (g : Q -> Q) (closes : list Q) (i n : nat) : Q :=
  match n with
  | O => 0
  | S n' => g (nth i closes 0) + trailing_sum g closes (i - 1) n'
  end.

(** Arithmetic mean of the [n] closes ending at bar [i]. *)
Definition trailing_mean (closes : list Q) (i n : nat) : Q :=
  trailing_sum (fun x => x) closes i n / inject_Z (Z.of_nat n).

(** Sample variance (n-1 denominator) of the [n] closes ending at bar [i]. *)
Definition trailing_variance (closes : list Q) (i n : nat) : Q :=
  let m := trailing_mean closes i n in
  trailing_sum (fun x => (x - m) * (x - m)) closes i n
  / inject_Z (Z.of_nat (n - 1)).

(** ** Sample inputs *)

Definition closes_200 : list Q :=
  map (fun k => inject_Z (Z.of_nat k)) (seq 100 200).




(** Sum, mean and sample variance of a list of numbers. *)
Definition Qsum (qs : list Q) : Q := fold_right Qplus 0 qs.

Definition Qmean (qs : list Q) : Q :=
  Qsum qs / inject_Z (Z.of_nat (length qs)).

Definition Qvariance (qs : list Q) : Q :=
  Qsum (map (fun x => (x - Qmean qs) * (x - Qmean qs)) qs)
  / inject_Z (Z.of_nat (length qs - 1)).

(** The plain weighted sum of one row of returns. *)
Fixpoint weighted_sum (ws rs : list Q) : Q :=
  match ws, rs with
  | w :: ws', r :: rs' => w * r + weighted_sum ws' rs'
  | _, _ => 0
  end.

(** Two securities: [A] trades on days 1, 2 and 4, [B] on days 1 to 4. *)
Definition download_AB (a1 a2 a4 b1 b2 b3 b4 : Q) (t : string)
  : price_series :=
  if String.eqb t "A" then [(1%Z, Fin a1); (2%Z, Fin a2); (4%Z, Fin a4)]
  else [(1%Z, Fin b1); (2%Z, Fin b2); (3%Z, Fin b3); (4%Z, Fin b4)].

Definition sample_download : string -> price_series :=
  download_AB 10 11 12 20 19 21 22.

Definition alloc_AB : dict fl := [("A"%string, Fin (1 # 2)); ("B"%string, Fin (1 # 2))].

Definition alloc_BA : dict fl := [("B"%string, Fin (1 # 2)); ("A"%string, Fin (1 # 2))].

(** Number of occurrences of a character in a string. *)
Fixpoint count_char (c : ascii) (s : string) : nat :=
  match s with
  | EmptyString => O
  | String a t => if Ascii.eqb a c then S (count_char c t) else count_char c t
  end.

(** The entries the parsing loop stores. *)
Definition well_formed (item : string) : bool :=
  match parse_item item with Some _ => true | None => false end.

(** A finite value between two bounds. *)
Definition in_interval (lo hi : Q) (a : fl) : Prop :=
  match a with Fin q => lo <= q <= hi | _ => False end.

Definition has_data (s : price_series) : bool :=
  match s with [] => false | _ :: _ => true end.

(** The dates of the first ticker, in the order of the map, whose download
    is not empty; no date when every download is empty. *)
Definition first_index (download : string -> price_series)
  (tickers : list string) : list date :=
  match find (fun t => has_data (download t)) tickers with
  | Some t => map fst (download t)
  | None => []
  end.

(** The value of a column at row [i] if it is there, else the nearest
    value above row [i], else [init]: never a value from below. *)
Fixpoint last_valid (init : fl) (xs : series) (i : nat) : fl :=
  let v := nth i xs NaN in
  if Fl.notna v then v
  else match i with
       | O => init
       | S i' => last_valid init xs i'
       end.

(** The most recent close of a security on or before the [i]-th date of an
    index, among the dates of that index; missing when it has none. *)
Definition last_observed (s : price_series) (idx : list date) (i : nat) : fl :=
  last_valid NaN (reindex s idx) i.

(** A positive price, or a missing one. *)
Definition price_or_nan (a : fl) : Prop :=
  match a with Fin q => 0 < q | NaN => True | _ => False end.

(** What the download loop maintains, with [done] the tickers stored so
    far: one column per ticker, in order, each the ticker's closes aligned
    to the index, and the index that of the first ticker with data. *)
Definition prices_inv (download : string -> price_series)
  (done : list string) (prices : frame) : Prop :=
  keys (columns prices) = done
  /\ index prices = first_index download done
  /\ forall t, In t done ->
       dict_get (columns prices) t
       = Some (reindex (download t) (index prices)).

(** Two securities over five common days. *)
Definition download_five (t : string) : price_series :=
  if String.eqb t "A" then
    [(1%Z, Fin 10); (2%Z, Fin 11); (3%Z, Fin 12); (4%Z, Fin 11); (5%Z, Fin 10)]
  else
    [(1%Z, Fin 20); (2%Z, Fin 19); (3%Z, Fin 21); (4%Z, Fin 22); (5%Z, Fin 23)].

(** Twenty-five closes rising by one a day from 100. *)
Definition closes_25 : list Q :=
  map (fun k => inject_Z (Z.of_nat k)) (seq 100 25).

(** Equality of two series, value by value. *)
Definition series_eq (xs ys : series) : Prop := Forall2 Fl.eq xs ys.

(** ** The ticker list *)

(** [tickers]: the comma-separated pieces of the ticker box, each stripped
    and upper-cased. *)
Definition tickers (tickers_input : string) : list string :=
  map (fun ticker => upper (strip ticker)) (split "," tickers_input).

(** The ticker an entry of the allocation box is stored under, when it is
    stored. *)
Definition entry_key (item : string) : option string :=
  option_map fst (parse_item item).

(** The items of a list that are [Some], in order. *)
Fixpoint somes {A : Type} (l : list (option A)) : list A :=
  match l with
  | [] => []
  | Some a :: r => a :: somes r
  | None :: r => somes r
  end.

(** The value of a run of decimal digits, most significant first. *)
Fixpoint decimal_value (acc : Z) (ds : list ascii) : Z :=
  match ds with
  | [] => acc
  | d :: r =>
      decimal_value (10 * acc + Z.of_nat (nat_of_ascii d - 48))%Z r
  end.

Definition is_digit (c : ascii) : bool :=
  match digit_of c with Some _ => true | None => false end.

(** The product of the first [i + 1] numbers of a list. *)
Fixpoint running_product (xs : list Q) (i : nat) : Q :=
  match xs with
  | [] => 1
  | x :: t =>
      match i with
      | O => x
      | S i' => x * running_product t i'
      end
  end.

(** The simple returns of a run of prices that follows the price [prev]. *)
Fixpoint simple_returns (prev : Q) (qs : list Q) : list Q :=
  match qs with
  | [] => []
  | q :: t => (q / prev - 1) :: simple_returns q t
  end.

(** Three days of unchanged prices, for every ticker. *)
Definition download_flat (t : string) : price_series :=
  [(1%Z, Fin 10); (2%Z, Fin 10); (3%Z, Fin 10)].

(** * Properties *)

(** ** Extended numbers *)

Lemma fl_eq_refl (a : fl) : a =f= a.
Proof. destruct a; simpl; auto with qarith. Qed.

Lemma fl_eq_sym (a b : fl) : a =f= b -> b =f= a.
Proof. destruct a, b; simpl; auto with qarith. Qed.

Lemma fl_eq_trans (a b c : fl) : a =f= b -> b =f= c -> a =f= c.
Proof.
  destruct a, b, c; simpl; try tauto.
  intros H1 H2. now rewrite H1.
Qed.

Lemma sum_from_fin (qs : list Q) (acc : Q) :
  fold_left Fl.add (map Fin qs) (Fin acc) = Fin (fold_left Qplus qs acc).
Proof.
  revert acc. induction qs as [|q qs IH]; intros acc; simpl; [reflexivity|].
  apply IH.
Qed.

Lemma sum_fin (qs : list Q) :
  Fl.sum (map Fin qs) = Fin (fold_left Qplus qs 0).
Proof. apply sum_from_fin. Qed.

Lemma observations_fin (qs : list Q) :
  observations (map Fin qs) = map Fin qs.
Proof.
  unfold observations. induction qs as [|q qs IH]; simpl; [reflexivity|].
  now rewrite IH.
Qed.

Lemma prep_values_fin (qs : list Q) : prep_values (map Fin qs) = map Fin qs.
Proof. unfold prep_values. rewrite map_map. reflexivity. Qed.

Lemma prep_values_length (xs : series) :
  length (prep_values xs) = length xs.
Proof. unfold prep_values. apply length_map. Qed.

Lemma prep_values_missing (xs : series) (j : nat) :
  nth_error xs j = Some NaN -> nth_error (prep_values xs) j = Some NaN.
Proof.
  intros H. unfold prep_values. rewrite nth_error_map, H. reflexivity.
Qed.

Lemma of_nat_pos (n : nat) : (0 < n)%nat -> 0 < inject_Z (Z.of_nat n).
Proof.
  intros H. change 0 with (inject_Z 0). rewrite <- Zlt_Qlt. lia.
Qed.

Lemma div_fin_pos (x y : Q) : 0 < y -> Fl.div (Fin x) (Fin y) = Fin (x / y).
Proof.
  intros H. simpl. apply Qgt_alt in H. now rewrite H.
Qed.

Lemma mean_fin (qs : list Q) :
  qs <> [] ->
  mean (map Fin qs)
  = Fin (fold_left Qplus qs 0 / inject_Z (Z.of_nat (length qs))).
Proof.
  intros Hne. unfold mean. rewrite observations_fin, sum_fin, length_map.
  unfold Fl.of_nat. apply div_fin_pos, of_nat_pos.
  destruct qs; [congruence | simpl; lia].
Qed.

(** ** Rolling windows *)

Lemma window_fin (w i : nat) (qs : list Q) :
  window w i (map Fin qs) = map Fin (skipn (i + 1 - w) (firstn (i + 1) qs)).
Proof. unfold window. now rewrite firstn_map, skipn_map. Qed.

Lemma firstn_snoc {A : Type} (d : A) (xs : list A) (i : nat) :
  (i < length xs)%nat -> firstn (i + 1) xs = firstn i xs ++ [nth i xs d].
Proof.
  revert i. induction xs as [|x xs IH]; intros i Hi; simpl in Hi; [lia|].
  destruct i as [|i]; simpl; [reflexivity|].
  f_equal. apply IH. lia.
Qed.

Lemma window_length (w i : nat) (qs : list Q) :
  (i < length qs)%nat ->
  length (skipn (i + 1 - w) (firstn (i + 1) qs)) = Nat.min w (i + 1).
Proof.
  intros Hi. rewrite length_skipn, length_firstn. lia.
Qed.

(** The sum over the window, in the order the engine adds, is the sum over
    the trailing bars. *)
Lemma window_sum (g : Q -> Q) (qs : list Q) (n i : nat) (acc : Q) :
  (i < length qs)%nat -> (n <= i + 1)%nat ->
  fold_left Qplus (map g (skipn (i + 1 - n) (firstn (i + 1) qs))) acc
  == acc + trailing_sum g qs i n.
Proof.
  revert i acc. induction n as [|n IH]; intros i acc Hi Hn.
  - rewrite skipn_all2 by (rewrite length_firstn; lia). simpl. ring.
  - rewrite (firstn_snoc 0 qs i Hi).
    replace (i + 1 - S n)%nat with (i - n)%nat by lia.
    rewrite skipn_app, length_firstn.
    replace (i - n - Nat.min i (length qs))%nat with 0%nat by lia.
    simpl skipn at 2. rewrite map_app, fold_left_app. simpl.
    destruct i as [|i].
    + assert (n = 0%nat) by lia. subst n. simpl. ring.
    + replace (S i - n)%nat with (i + 1 - n)%nat by lia.
      replace (S i) with (i + 1)%nat at 1 by lia.
      rewrite IH by lia.
      replace (S i - 1)%nat with i by lia. ring.
Qed.

Lemma rolling_nth (w : nat) (agg : series -> fl) (xs : series) (i : nat) :
  (i < length xs)%nat ->
  nth_error (rolling w agg xs) i
  = Some (let obs := observations (window w i (prep_values xs)) in
          if (length obs <? w)%nat then NaN else agg obs).
Proof.
  intros Hi. unfold rolling.
  rewrite nth_error_map, nth_error_seq.
  destruct (Nat.ltb_spec i (length xs)); [reflexivity | lia].
Qed.

Lemma rolling_length (w : nat) (agg : series -> fl) (xs : series) :
  length (rolling w agg xs) = length xs.
Proof. unfold rolling. now rewrite length_map, length_seq. Qed.

(** Before [w] bars exist the rolling value is missing, whatever the
    aggregate. *)
Lemma rolling_fin_early (w : nat) (agg : series -> fl) (qs : list Q) (i : nat) :
  (i < length qs)%nat -> (i + 1 < w)%nat ->
  nth_error (rolling w agg (map Fin qs)) i = Some NaN.
Proof.
  intros Hi Hw. rewrite rolling_nth by (now rewrite length_map).
  cbv zeta.
  rewrite prep_values_fin, window_fin, observations_fin, length_map,
    window_length by easy.
  destruct (Nat.ltb_spec (Nat.min w (i + 1)) w); [reflexivity | lia].
Qed.

Lemma rolling_fin_full (w : nat) (agg : series -> fl) (qs : list Q) (i : nat) :
  (i < length qs)%nat -> (w <= i + 1)%nat ->
  nth_error (rolling w agg (map Fin qs)) i
  = Some (agg (map Fin (skipn (i + 1 - w) (firstn (i + 1) qs)))).
Proof.
  intros Hi Hw. rewrite rolling_nth by (now rewrite length_map).
  cbv zeta.
  rewrite prep_values_fin, window_fin, observations_fin, length_map,
    window_length by easy.
  destruct (Nat.ltb_spec (Nat.min w (i + 1)) w); [lia | reflexivity].
Qed.

(** The rolling mean of finite values at a bar with a full window. *)
Lemma rolling_mean_fin (w : nat) (qs : list Q) (i : nat) :
  (0 < w)%nat -> (i < length qs)%nat -> (w <= i + 1)%nat ->
  exists v, nth_error (rolling_mean w (map Fin qs)) i = Some (Fin v)
            /\ v == trailing_mean qs i w.
Proof.
  intros H0 Hi Hw. unfold rolling_mean. rewrite rolling_fin_full by easy.
  assert (Hlen := window_length w i qs Hi).
  rewrite mean_fin by (intros E; rewrite E in Hlen; simpl in Hlen; lia).
  eexists; split; [reflexivity|].
  rewrite Hlen. replace (Nat.min w (i + 1)) with w by lia.
  unfold trailing_mean.
  rewrite <- (map_id (skipn _ _)). rewrite window_sum by easy.
  now rewrite Qplus_0_l.
Qed.

(** ** Simple moving averages *)

(** C5: on every bar series and at every bar [i], [sma50] (resp. [sma200])
    is the arithmetic mean of the 50 (resp. 200) closes ending at [i]
    inclusive when that many bars exist up to [i], and is missing (not
    zero) otherwise; so [sma200] is defined at [i] exactly when
    [i >= 199]. *)
Theorem sma_trailing_window (sqrtQ : Q -> Q) (closes : list Q) (i : nat) :
  (i < length closes)%nat ->
  let t := fetch_data sqrtQ (map Fin closes) in
  ((49 <= i)%nat ->
   exists v, nth_error (SMA_50 t) i = Some (Fin v)
             /\ v == trailing_mean closes i 50)
  /\ ((i < 49)%nat -> nth_error (SMA_50 t) i = Some NaN)
  /\ ((199 <= i)%nat ->
      exists v, nth_error (SMA_200 t) i = Some (Fin v)
                /\ v == trailing_mean closes i 200)
  /\ ((i < 199)%nat -> nth_error (SMA_200 t) i = Some NaN)
  /\ ((exists v, nth_error (SMA_200 t) i = Some (Fin v)) <-> (199 <= i)%nat).
Proof.
  intros Hi t. subst t. unfold fetch_data. cbn [SMA_50 SMA_200].
  assert (H50 : (49 <= i)%nat ->
                exists v, nth_error (rolling_mean 50 (map Fin closes)) i
                          = Some (Fin v) /\ v == trailing_mean closes i 50)
    by (intros; apply rolling_mean_fin; lia).
  assert (H200 : (199 <= i)%nat ->
                 exists v, nth_error (rolling_mean 200 (map Fin closes)) i
                           = Some (Fin v) /\ v == trailing_mean closes i 200)
    by (intros; apply rolling_mean_fin; lia).
  assert (E50 : (i < 49)%nat ->
                nth_error (rolling_mean 50 (map Fin closes)) i = Some NaN)
    by (intros; apply rolling_fin_early; lia).
  assert (E200 : (i < 199)%nat ->
                 nth_error (rolling_mean 200 (map Fin closes)) i = Some NaN)
    by (intros; apply rolling_fin_early; lia).
  repeat split; auto.
  - intros [v Hv]. destruct (Nat.le_gt_cases 199 i) as [|Hlt]; [assumption|].
    rewrite (E200 Hlt) in Hv. discriminate.
  - intros H. destruct (H200 H) as [v [Hv _]]. now exists v.
Qed.

Lemma sma_trailing_window_witness :
  (199 < length closes_200)%nat
  /\ (exists v,
         nth_error (SMA_200 (fetch_data sqrt_approx (map Fin closes_200))) 199
         = Some (Fin v)
         /\ v == trailing_mean closes_200 199 200).
Proof.
  split; [vm_compute; lia|].
  apply (sma_trailing_window sqrt_approx closes_200 199); vm_compute; lia.
Defined.

(** ** Exponential moving average *)

Lemma ewm_alpha_20 : ewm_alpha 20 == 2 # 21.
Proof. reflexivity. Qed.

Lemma ewm_step_fin (e c : Q) :
  exists e', ewm_step (ewm_alpha 20) (Fin e) 1 (Fin c) = (Fin e', 1)
             /\ e' == (2 # 21) * c + (1 - (2 # 21)) * e.
Proof.
  unfold ewm_step. cbn [Fl.isnan].
  unfold Fl.neb, Fl.eqb. cbn [Fl.compare].
  destruct (e ?= c) eqn:Hc; cbn [negb].
  - exists e. split; [reflexivity|].
    apply Qeq_alt in Hc. rewrite <- Hc. ring.
  - eexists. split.
    + cbn [Fl.mul Fl.add]. rewrite div_fin_pos by reflexivity. reflexivity.
    + rewrite ewm_alpha_20. field.
  - eexists. split.
    + cbn [Fl.mul Fl.add]. rewrite div_fin_pos by reflexivity. reflexivity.
    + rewrite ewm_alpha_20. field.
Qed.

(** The loop on finite closes: every output is finite and follows the
    recurrence from the value before it ([e0] for the first). *)
Lemma ewm_loop_fin (qs : list Q) :
  forall e0 : Q,
  exists es : list Q,
    ewm_loop (ewm_alpha 20) (Fin e0) 1 (map Fin qs) = map Fin es
    /\ length es = length qs
    /\ forall j, (j < length qs)%nat ->
         nth j es 0
         == (2 # 21) * nth j qs 0 + (1 - (2 # 21)) * nth j (e0 :: es) 0.
Proof.
  induction qs as [|q qs IH]; intros e0.
  - exists []. repeat split; simpl; intros; lia.
  - destruct (ewm_step_fin e0 q) as [e' [Hstep He']].
    destruct (IH e') as [es [Hes [Hlen Hrec]]].
    exists (e' :: es). cbn [map ewm_loop]. rewrite Hstep, Hes.
    repeat split; [simpl; lia|].
    intros [|j] Hj; [exact He'|].
    apply (Hrec j). simpl in Hj. lia.
Qed.

Lemma nth_error_map_fin (l : list Q) (j : nat) :
  (j < length l)%nat -> nth_error (map Fin l) j = Some (Fin (nth j l 0)).
Proof.
  intros Hj. rewrite nth_error_map, (nth_error_nth' l 0 Hj). reflexivity.
Qed.

(** C6: on every non-empty bar series, [ema20] at bar 0 is the first close
    itself; at every later bar [i] it is [a*close[i] + (1-a)*ema20[i-1]]
    with [a = 2/21]; and it is defined at every bar. *)
Theorem ema20_recurrence (sqrtQ : Q -> Q) (closes : list Q) :
  closes <> [] ->
  let ema := EMA_20 (fetch_data sqrtQ (map Fin closes)) in
  nth_error ema 0 = Some (Fin (nth 0 closes 0))
  /\ (forall i, (0 < i < length closes)%nat ->
        exists e' e,
          nth_error ema (i - 1) = Some (Fin e')
          /\ nth_error ema i = Some (Fin e)
          /\ e == (2 # 21) * nth i closes 0 + (1 - (2 # 21)) * e')
  /\ (forall i, (i < length closes)%nat ->
        exists e, nth_error ema i = Some (Fin e)).
Proof.
  intros Hne ema. subst ema. unfold fetch_data. cbn [EMA_20].
  destruct closes as [|c t]; [congruence|]. clear Hne.
  unfold ewm_mean. rewrite prep_values_fin. cbn [map].
  destruct (ewm_loop_fin t c) as [es [Hes [Hlen Hrec]]].
  rewrite Hes. change (Fin c :: map Fin es) with (map Fin (c :: es)).
  split; [reflexivity|]. split.
  - intros i [Hpos Hi]. destruct i as [|j]; [lia|].
    cbn [length] in Hi.
    exists (nth j (c :: es) 0), (nth j es 0).
    replace (S j - 1)%nat with j by lia.
    split; [apply nth_error_map_fin; simpl; lia|].
    split; [apply (nth_error_map_fin (c :: es) (S j)); simpl; lia|].
    apply (Hrec j). lia.
  - intros i Hi. exists (nth i (c :: es) 0).
    apply nth_error_map_fin. simpl in *. lia.
Qed.

Lemma ema20_recurrence_witness :
  [100; 101; 102] <> []
  /\ nth_error (EMA_20 (fetch_data sqrt_approx (map Fin [100; 101; 102]))) 0
     = Some (Fin 100).
Proof.
  split; [discriminate|].
  apply (ema20_recurrence sqrt_approx [100; 101; 102]). discriminate.
Defined.

Lemma ewm_mean_fin (closes : list Q) :
  exists es : list Q,
    ewm_mean 20 (map Fin closes) = map Fin es /\ length es = length closes.
Proof.
  destruct closes as [|c t]; [now exists []|].
  destruct (ewm_loop_fin t c) as [es [Hes [Hlen _]]].
  exists (c :: es). unfold ewm_mean. rewrite prep_values_fin. cbn [map].
  rewrite Hes.
  split; [reflexivity | simpl; lia].
Qed.

(** ** Standard deviation and the bands *)

Lemma trailing_sum_ext (g h : Q -> Q) (closes : list Q) (n i : nat) :
  (forall x, g x == h x) ->
  trailing_sum g closes i n == trailing_sum h closes i n.
Proof.
  intros Hgh. revert i. induction n as [|n IH]; intros i; simpl.
  - reflexivity.
  - now rewrite Hgh, IH.
Qed.

Lemma square_nonneg (y : Q) : 0 <= y * y.
Proof. destruct y as [a b]. unfold Qle. simpl. nia. Qed.

Lemma sum_squares_nonneg (m : Q) (ws : list Q) (acc : Q) :
  0 <= acc ->
  0 <= fold_left Qplus (map (fun x => (x - m) * (x - m)) ws) acc.
Proof.
  revert acc. induction ws as [|x ws IH]; intros acc Hacc; simpl; [exact Hacc|].
  apply IH. assert (H := square_nonneg (x - m)). lra.
Qed.

Lemma fsqrt_nonneg (sqrtQ : Q -> Q) (x : Q) :
  0 <= x -> fsqrt sqrtQ (Fin x) = Fin (sqrtQ x).
Proof.
  intros Hx. unfold fsqrt. destruct (x ?= 0) eqn:Hc; try reflexivity.
  apply Qlt_alt in Hc. lra.
Qed.

(** The sample standard deviation of at least two finite values. *)
Lemma std_fin (sqrtQ : Q -> Q) (ws : list Q) :
  (2 <= length ws)%nat ->
  let m := fold_left Qplus ws 0 / inject_Z (Z.of_nat (length ws)) in
  std sqrtQ (map Fin ws)
  = Fin (sqrtQ (fold_left Qplus (map (fun x => (x - m) * (x - m)) ws) 0
                / inject_Z (Z.of_nat (length ws - 1)))).
Proof.
  intros Hlen m. unfold std.
  rewrite observations_fin.
  rewrite mean_fin by (intros E; rewrite E in Hlen; simpl in Hlen; lia).
  fold m. rewrite map_map.
  change (map (fun x => Fl.mul (Fl.sub (Fin x) (Fin m)) (Fl.sub (Fin x) (Fin m))) ws)
    with (map (fun x => Fin ((x - m) * (x - m))) ws).
  rewrite <- (map_map (fun x => (x - m) * (x - m)) Fin).
  rewrite sum_fin, length_map. unfold Fl.of_nat.
  assert (Hpos : 0 < inject_Z (Z.of_nat (length ws - 1)))
    by (apply of_nat_pos; lia).
  rewrite div_fin_pos by exact Hpos.
  apply fsqrt_nonneg.
  apply Qle_shift_div_l; [exact Hpos|].
  rewrite Qmult_0_l. apply sum_squares_nonneg. lra.
Qed.

(** The rolling standard deviation of finite closes at a bar with a full
    window is the root of the sample variance of the trailing closes. *)
Lemma rolling_std_fin (sqrtQ : Q -> Q) (w : nat) (qs : list Q) (i : nat) :
  (2 <= w)%nat -> (i < length qs)%nat -> (w <= i + 1)%nat ->
  exists v, nth_error (rolling_std sqrtQ w (map Fin qs)) i
            = Some (Fin (sqrtQ v))
            /\ v == trailing_variance qs i w.
Proof.
  intros H2 Hi Hw. unfold rolling_std. rewrite rolling_fin_full by easy.
  assert (Hlen := window_length w i qs Hi).
  replace (Nat.min w (i + 1)) with w in Hlen by lia.
  rewrite std_fin by lia. cbv zeta.
  eexists; split; [reflexivity|].
  rewrite Hlen. unfold trailing_variance.
  rewrite window_sum by easy. rewrite Qplus_0_l.
  apply Qdiv_comp; [|reflexivity].
  apply trailing_sum_ext. intros x.
  assert (Hm : fold_left Qplus (skipn (i + 1 - w) (firstn (i + 1) qs)) 0
               / inject_Z (Z.of_nat w) == trailing_mean qs i w).
  { unfold trailing_mean. apply Qdiv_comp; [|reflexivity].
    rewrite <- (map_id (skipn _ _)). rewrite window_sum by easy.
    apply Qplus_0_l. }
  now rewrite Hm.
Qed.

Lemma nth_error_zip_with (f : fl -> fl -> fl) (xs ys : series) (i : nat)
  (x y : fl) :
  nth_error xs i = Some x -> nth_error ys i = Some y ->
  nth_error (zip_with f xs ys) i = Some (f x y).
Proof.
  revert ys i. induction xs as [|a xs IH]; intros ys i Hx Hy.
  - destruct i; discriminate.
  - destruct ys as [|b ys]; [destruct i; discriminate|].
    destruct i as [|i]; simpl in *.
    + congruence.
    + now apply IH.
Qed.

(** C7: on every bar series and at every bar [i], the upper band is
    [ema20[i] + 2*std20[i]] and the lower band [ema20[i] - 2*std20[i]],
    where [std20[i]] is the sample (n-1 denominator) standard deviation of
    the 20 closes ending at [i]; the bands are missing exactly where
    [std20] is, that is before 20 bars exist. *)
Theorem bollinger_bands (sqrtQ : Q -> Q) (closes : list Q) (i : nat) :
  (i < length closes)%nat ->
  let t := fetch_data sqrtQ (map Fin closes) in
  let std20 := rolling_std sqrtQ 20 (map Fin closes) in
  ((19 <= i)%nat ->
   exists e v,
     nth_error (EMA_20 t) i = Some (Fin e)
     /\ v == trailing_variance closes i 20
     /\ nth_error std20 i = Some (Fin (sqrtQ v))
     /\ nth_error (Upper_BB t) i = Some (Fin (e + 2 * sqrtQ v))
     /\ nth_error (Lower_BB t) i = Some (Fin (e - 2 * sqrtQ v)))
  /\ ((i < 19)%nat ->
      nth_error std20 i = Some NaN
      /\ nth_error (Upper_BB t) i = Some NaN
      /\ nth_error (Lower_BB t) i = Some NaN).
Proof.
  intros Hi t std20. subst t std20. unfold fetch_data.
  cbn [EMA_20 Upper_BB Lower_BB].
  destruct (ewm_mean_fin closes) as [es [Hes Hlen]].
  assert (He : nth_error (ewm_mean 20 (map Fin closes)) i
               = Some (Fin (nth i es 0)))
    by (rewrite Hes; apply nth_error_map_fin; lia).
  split.
  - intros Hw.
    destruct (rolling_std_fin sqrtQ 20 closes i) as [v [Hv Hvar]]; [lia..|].
    exists (nth i es 0), v.
    split; [exact He|]. split; [exact Hvar|]. split; [exact Hv|].
    assert (H2 : nth_error (map (Fl.mul (Fin 2))
                                (rolling_std sqrtQ 20 (map Fin closes))) i
                 = Some (Fin (2 * sqrtQ v)))
      by (rewrite nth_error_map, Hv; reflexivity).
    split.
    + rewrite (nth_error_zip_with Fl.add _ _ _ _ _ He H2). reflexivity.
    + rewrite (nth_error_zip_with Fl.sub _ _ _ _ _ He H2). reflexivity.
  - intros Hw.
    assert (Hs : nth_error (rolling_std sqrtQ 20 (map Fin closes)) i
                 = Some NaN)
      by (apply rolling_fin_early; lia).
    assert (H2 : nth_error (map (Fl.mul (Fin 2))
                                (rolling_std sqrtQ 20 (map Fin closes))) i
                 = Some NaN)
      by (rewrite nth_error_map, Hs; reflexivity).
    split; [exact Hs|]. split.
    + rewrite (nth_error_zip_with Fl.add _ _ _ _ _ He H2). reflexivity.
    + rewrite (nth_error_zip_with Fl.sub _ _ _ _ _ He H2). reflexivity.
Qed.

Lemma bollinger_bands_witness :
  (3 < length [100; 101; 102; 103])%nat
  /\ nth_error
       (Upper_BB (fetch_data sqrt_approx (map Fin [100; 101; 102; 103]))) 3
     = Some NaN.
Proof.
  assert (Hlen : (3 < length [100; 101; 102; 103])%nat) by (simpl; lia).
  split; [exact Hlen|].
  assert (Hearly : (3 < 19)%nat) by lia.
  exact (proj1 (proj2
           (proj2 (bollinger_bands sqrt_approx [100; 101; 102; 103] 3 Hlen)
                  Hearly))).
Defined.

(** ** Relative strength index *)









Lemma zip_with_length (f : fl -> fl -> fl) (xs ys : series) :
  length (zip_with f xs ys) = Nat.min (length xs) (length ys).
Proof.
  revert ys. induction xs as [|x xs IH]; intros [|y ys]; simpl; auto.
Qed.

Lemma diff_length (xs : series) : length (diff xs) = length xs.
Proof.
  destruct xs as [|x t]; simpl; [reflexivity|].
  rewrite zip_with_length. simpl. lia.
Qed.




Lemma rsi_nth (sqrtQ : Q -> Q) (close : series) (i : nat) (g l : fl) :
  nth_error (rsi_gain close) i = Some g ->
  nth_error (rsi_loss close) i = Some l ->
  nth_error (RSI (fetch_data sqrtQ close)) i = Some (rsi_of_rs (Fl.div g l)).
Proof.
  intros Hg Hl. unfold fetch_data. cbn [RSI].
  rewrite nth_error_map.
  now rewrite (nth_error_zip_with Fl.div _ _ _ _ _ Hg Hl).
Qed.

(** An infinite ratio of either sign gives the index 100. *)
Lemma rsi_of_infinite_rs : rsi_of_rs PInf = Fin 100 /\ rsi_of_rs NInf = Fin 100.
Proof. split; reflexivity. Qed.




(** ** Portfolio metrics *)

Lemma fold_left_Qsum (qs : list Q) (acc : Q) :
  fold_left Qplus qs acc == acc + Qsum qs.
Proof.
  revert acc. induction qs as [|q qs IH]; intros acc; simpl.
  - ring.
  - rewrite IH. unfold Qsum. ring.
Qed.

Lemma Qsum_map_ext (g h : Q -> Q) (qs : list Q) :
  (forall x, g x == h x) -> Qsum (map g qs) == Qsum (map h qs).
Proof.
  intros Hgh. induction qs as [|q qs IH]; simpl; [reflexivity|].
  unfold Qsum in IH. now rewrite Hgh, IH.
Qed.

Lemma eqb_zero (a : fl) : Fl.eqb a (Fin 0) = true <-> a =f= Fin 0.
Proof.
  destruct a as [q| | |]; unfold Fl.eqb; simpl; try (split; [discriminate|tauto]).
  destruct (q ?= 0) eqn:Hc; split; intros H; try reflexivity; try discriminate.
  - now apply Qeq_alt.
  - apply Qeq_alt in H. congruence.
  - apply Qeq_alt in H. congruence.
Qed.

(** Mean and sample standard deviation of at least two finite returns. *)
Lemma mean_std_fin (sqrtQ : Q -> Q) (qs : list Q) :
  (2 <= length qs)%nat ->
  exists m v,
    mean (map Fin qs) = Fin m /\ m == Qmean qs
    /\ std sqrtQ (map Fin qs) = Fin (sqrtQ v) /\ v == Qvariance qs.
Proof.
  intros Hlen.
  assert (Hne : qs <> []) by (intros E; rewrite E in Hlen; simpl in Hlen; lia).
  assert (Hm : fold_left Qplus qs 0 / inject_Z (Z.of_nat (length qs))
               == Qmean qs).
  { unfold Qmean. rewrite fold_left_Qsum. now rewrite Qplus_0_l. }
  eexists. eexists.
  split; [apply (mean_fin qs Hne)|]. split; [exact Hm|].
  split; [apply (std_fin sqrtQ qs Hlen)|].
  unfold Qvariance. rewrite fold_left_Qsum, Qplus_0_l.
  apply Qdiv_comp; [|reflexivity].
  apply Qsum_map_ext. intros x. now rewrite Hm.
Qed.

(** C4: for the weighted-return series [portfolio_performance] computes,
    the reported mean and volatility are the mean and the sample standard
    deviation of that series, and the ratio is the mean divided by the
    volatility, except that it is exactly 0 when the volatility is exactly
    0. *)
Theorem sharpe_zero_guard (sqrtQ : Q -> Q)
  (download : string -> price_series) (alloc_dict : dict fl) :
  let r := portfolio_return download alloc_dict in
  let m := snd (portfolio_performance sqrtQ download alloc_dict) in
  average_daily_return m = mean r
  /\ volatility m = std sqrtQ r
  /\ (volatility m =f= Fin 0 -> sharpe_ratio m = Fin 0)
  /\ (~ volatility m =f= Fin 0 ->
      sharpe_ratio m = Fl.div (average_daily_return m) (volatility m))
  /\ (forall qs : list Q,
        r = map Fin qs -> (2 <= length qs)%nat ->
        exists a v,
          average_daily_return m = Fin a /\ a == Qmean qs
          /\ volatility m = Fin (sqrtQ v) /\ v == Qvariance qs).
Proof.
  intros r m. subst m. unfold portfolio_performance. cbn [snd]. fold r.
  unfold metrics_of.
  cbn [average_daily_return volatility sharpe_ratio].
  split; [reflexivity|]. split; [reflexivity|].
  split; [|split].
  - intros Hz. apply eqb_zero in Hz. unfold Fl.neb. now rewrite Hz.
  - intros Hnz. unfold Fl.neb.
    destruct (Fl.eqb (std sqrtQ r) (Fin 0)) eqn:He; [|reflexivity].
    apply eqb_zero in He. contradiction.
  - intros qs Hr Hlen. rewrite Hr. apply mean_std_fin. exact Hlen.
Qed.

Lemma sharpe_zero_guard_witness :
  ~ volatility (snd (portfolio_performance sqrt_approx sample_download alloc_BA))
    =f= Fin 0
  /\ sharpe_ratio (snd (portfolio_performance sqrt_approx sample_download alloc_BA))
     = Fl.div
         (average_daily_return
            (snd (portfolio_performance sqrt_approx sample_download alloc_BA)))
         (volatility
            (snd (portfolio_performance sqrt_approx sample_download alloc_BA))).
Proof.
  assert (Hnz : ~ volatility
                    (snd (portfolio_performance sqrt_approx sample_download
                                                alloc_BA)) =f= Fin 0)
    by (vm_compute; discriminate).
  split; [exact Hnz|].
  exact (proj1 (proj2 (proj2 (proj2
           (sharpe_zero_guard sqrt_approx sample_download alloc_BA)))) Hnz).
Defined.

(** ** Weighted returns *)

Lemma row_mul_columns (rets : list (list Q)) (W : list Q) (i : nat) :
  Forall (fun c => (i < length c)%nat) rets ->
  row (mul_columns (map (map Fin) rets) (map Fin W)) i
  = map Fin (map (fun cw => nth i (fst cw) 0 * snd cw) (combine rets W)).
Proof.
  intros Hlen. revert W. induction Hlen as [|c rets Hc _ IH]; intros W.
  - reflexivity.
  - destruct W as [|w W]; [reflexivity|].
    cbn [map mul_columns combine row fst snd]. f_equal.
    + rewrite map_map.
      change (map (fun x => Fl.mul (Fin x) (Fin w)) c)
        with (map (fun x => Fin (x * w)) c).
      rewrite <- (map_map (fun x => x * w) Fin).
      rewrite (nth_indep _ NaN (Fin 0)) by (rewrite !length_map; exact Hc).
      rewrite (map_nth Fin). f_equal.
      rewrite (nth_indep _ 0 (0 * w)) by (rewrite length_map; exact Hc).
      apply (map_nth (fun x => x * w)).
    + apply IH.
Qed.

Lemma products_weighted_sum (rets : list (list Q)) (W : list Q) (i : nat) :
  Qsum (map (fun cw => nth i (fst cw) 0 * snd cw) (combine rets W))
  == weighted_sum W (map (fun c => nth i c 0) rets).
Proof.
  revert W. induction rets as [|c rets IH]; intros [|w W]; simpl;
    try reflexivity.
  unfold Qsum in IH. rewrite IH. ring.
Qed.

Lemma weighted_sum_common (W rs : list Q) (c : Q) :
  length rs = length W -> Forall (fun r => r == c) rs ->
  weighted_sum W rs == c * Qsum W.
Proof.
  revert rs. induction W as [|w W IH]; intros [|r rs] Hlen Hall; simpl in *;
    try discriminate; try ring.
  inversion Hall as [|? ? Hr Hrs]; subst.
  rewrite (IH rs) by (auto; lia). rewrite Hr. unfold Qsum. ring.
Qed.

(** C8: for every weight map and every aligned table of returns, the
    portfolio return on each date is the plain weighted sum of the
    constituents' returns on that date, not divided by the sum of the
    weights; so when every constituent has the same return on a date and
    the weights sum to 1, the portfolio return on that date is that common
    return. *)
Theorem weighted_return_plain_sum (alloc_dict : dict fl) (W : list Q)
  (rets : list (list Q)) (n i : nat) :
  weights_of alloc_dict = map Fin W ->
  Forall (fun c => length c = n) rets ->
  (i < n)%nat ->
  exists v,
    nth_error (portfolio_return_of n (map (map Fin) rets) alloc_dict) i
    = Some (Fin v)
    /\ v == weighted_sum W (map (fun c => nth i c 0) rets)
    /\ (forall c,
          length rets = length W ->
          Forall (fun col => nth i col 0 == c) rets ->
          Qsum W == 1 ->
          v == c).
Proof.
  intros HW Hcols Hi. unfold portfolio_return_of, sum_rows.
  rewrite nth_error_map, nth_error_seq.
  destruct (Nat.ltb_spec i n) as [_|]; [|lia]. cbn [option_map Nat.add].
  rewrite HW, row_mul_columns
    by (eapply Forall_impl; [|exact Hcols]; simpl; intros; lia).
  rewrite observations_fin, sum_fin.
  eexists. split; [reflexivity|].
  assert (Hsum : fold_left Qplus
                   (map (fun cw => nth i (fst cw) 0 * snd cw) (combine rets W)) 0
                 == weighted_sum W (map (fun c => nth i c 0) rets)).
  { rewrite fold_left_Qsum, Qplus_0_l. apply products_weighted_sum. }
  split; [exact Hsum|].
  intros c Hlen Hsame Hone. rewrite Hsum.
  rewrite (weighted_sum_common W _ c).
  - rewrite Hone. ring.
  - now rewrite length_map.
  - apply Forall_map. exact Hsame.
Qed.

Lemma weighted_return_plain_sum_witness :
  exists v,
    nth_error
      (portfolio_return_of 2 (map (map Fin) [[1 # 10; 1 # 20]; [1 # 10; 1 # 20]])
                           alloc_AB) 1
    = Some (Fin v)
    /\ v == weighted_sum [1 # 2; 1 # 2] [1 # 20; 1 # 20].
Proof.
  assert (HW : weights_of alloc_AB = map Fin [1 # 2; 1 # 2]) by reflexivity.
  assert (Hcols : Forall (fun c : list Q => length c = 2%nat)
                         [[1 # 10; 1 # 20]; [1 # 10; 1 # 20]])
    by (repeat constructor).
  assert (Hi : (1 < 2)%nat) by lia.
  destruct (weighted_return_plain_sum alloc_AB [1 # 2; 1 # 2]
              [[1 # 10; 1 # 20]; [1 # 10; 1 # 20]] 2 1 HW Hcols Hi)
    as [v [Hv [Hsum _]]].
  exists v. split; [exact Hv | exact Hsum].
Defined.

(** ** The allocation map *)

Lemma split_length (sep : ascii) (s : string) :
  length (split sep s) = S (count_char sep s).
Proof.
  induction s as [|a t IH]; simpl; [reflexivity|].
  destruct (Ascii.eqb a sep); simpl; [now rewrite IH|].
  destruct (split sep t) as [|h r]; simpl in *; lia.
Qed.

Lemma parse_item_inv (item k : string) (w : fl) :
  parse_item item = Some (k, w) ->
  exists t p v,
    split ":" item = [t; p] /\ py_float (strip p) = Some v
    /\ k = upper (strip t) /\ w = Fl.div v (Fin 100).
Proof.
  unfold parse_item. intros H.
  destruct (split ":" item) as [|t [|p [|x r]]]; try discriminate.
  destruct (py_float (strip p)) as [v|] eqn:Hv; [|discriminate].
  inversion H; subst. now exists t, p, v.
Qed.

Lemma parse_item_colons (item : string) :
  count_char ":" item <> 1%nat -> parse_item item = None.
Proof.
  intros Hc. destruct (parse_item item) as [[k w]|] eqn:Hp; [|reflexivity].
  destruct (parse_item_inv _ _ _ Hp) as [t [p [v [Hs _]]]].
  assert (Hl := split_length ":" item). rewrite Hs in Hl. simpl in Hl. lia.
Qed.

Lemma fold_skips_malformed (items : list string) (d : dict fl) :
  fold_left alloc_step items d
  = fold_left alloc_step (filter well_formed items) d.
Proof.
  revert d. induction items as [|item items IH]; intros d; [reflexivity|].
  cbn [fold_left filter]. unfold well_formed at 1, alloc_step at 2.
  destruct (parse_item item) as [[k v]|] eqn:Hp.
  - cbn [fold_left]. unfold alloc_step at 3. rewrite Hp. apply IH.
  - apply IH.
Qed.

(** C2, as the code has it: an entry that is malformed (its number of
    colons is not one, or its percentage is not a number) is passed over
    and the loop goes on: the map is the one the well-formed entries alone
    produce.  Nothing else is produced: two inputs with the same
    well-formed entries give the same result, whatever was passed over. *)
Theorem malformed_entries_skipped (s : string) :
  parse_allocations s
  = fold_left alloc_step (filter well_formed (split "," s)) []
  /\ (forall item, count_char ":" item <> 1%nat -> parse_item item = None)
  /\ (forall item t p,
        split ":" item = [t; p] -> py_float (strip p) = None ->
        parse_item item = None)
  /\ (forall item, In item (skipped s) <->
                   In item (split "," s) /\ parse_item item = None)
  /\ (forall s',
        filter well_formed (split "," s') = filter well_formed (split "," s) ->
        parse_allocations s' = parse_allocations s).
Proof.
  split; [apply fold_skips_malformed|].
  split; [apply parse_item_colons|].
  split.
  { intros item t p Hs Hf. unfold parse_item. now rewrite Hs, Hf. }
  split.
  { intros item. unfold skipped. rewrite filter_In.
    destruct (parse_item item); split; intros [H1 H2];
      (split; [assumption|]); congruence. }
  intros s' Hsame. unfold parse_allocations.
  rewrite (fold_skips_malformed (split "," s')), Hsame.
  symmetry. apply fold_skips_malformed.
Qed.

Lemma malformed_entries_skipped_witness :
  parse_allocations "AAPL:40,junk,MSFT:x,GOOGL:20"
  = parse_allocations "AAPL:40,GOOGL:20".
Proof.
  apply (malformed_entries_skipped "AAPL:40,GOOGL:20"). reflexivity.
Defined.

(** C2, as the spec has it, fails: no warning list reaches the caller.
    The result of the loop is the map alone, and it is the same with and
    without a skipped entry, so the skipped entries cannot be read off
    it. *)
Lemma skipped_entries_not_surfaced :
  ~ exists warnings : dict fl -> list string,
      forall s, warnings (parse_allocations s) = skipped s.
Proof.
  intros [warnings H].
  assert (H1 := H "AAPL:40,junk"%string).
  assert (H2 := H "AAPL:40"%string).
  change (parse_allocations "AAPL:40,junk") with (parse_allocations "AAPL:40")
    in H1.
  rewrite H2 in H1. vm_compute in H1. discriminate H1.
Qed.

Section DictFacts.

Context {V : Type}.

Lemma dict_get_set_same (d : dict V) (k : string) (v : V) :
  dict_get (dict_set d k v) k = Some v.
Proof.
  induction d as [|[k' v'] r IH]; simpl.
  - now rewrite String.eqb_refl.
  - destruct (String.eqb k' k) eqn:E; simpl; rewrite E; [reflexivity | exact IH].
Qed.

Lemma dict_get_set_other (d : dict V) (k k' : string) (v : V) :
  k' <> k -> dict_get (dict_set d k v) k' = dict_get d k'.
Proof.
  intros Hne. induction d as [|[k0 v0] r IH]; simpl.
  - destruct (String.eqb k k') eqn:E; [|reflexivity].
    apply String.eqb_eq in E. congruence.
  - destruct (String.eqb k0 k) eqn:E; simpl.
    + apply String.eqb_eq in E. subst k0.
      destruct (String.eqb k k') eqn:E'; [|reflexivity].
      apply String.eqb_eq in E'. congruence.
    + now rewrite IH.
Qed.

Lemma keys_dict_set (d : dict V) (k : string) (v : V) :
  keys (dict_set d k v) = keys d
  \/ (~ In k (keys d) /\ keys (dict_set d k v) = keys d ++ [k]).
Proof.
  induction d as [|[k' v'] r IH]; simpl.
  - right. split; [tauto | reflexivity].
  - destruct (String.eqb k' k) eqn:E; simpl; [now left|].
    apply String.eqb_neq in E.
    destruct IH as [IH | [Hnin IH]].
    + left. unfold keys in *. now rewrite IH.
    + right. split; [intros [H|H]; [congruence | contradiction]|].
      unfold keys in *. now rewrite IH.
Qed.

Lemma dict_set_NoDup (d : dict V) (k : string) (v : V) :
  NoDup (keys d) -> NoDup (keys (dict_set d k v)).
Proof.
  intros Hnd. destruct (keys_dict_set d k v) as [-> | [Hnin ->]]; [exact Hnd|].
  apply NoDup_app; [exact Hnd | repeat constructor; simpl; tauto |].
  intros x Hx [<-|[]]. contradiction.
Qed.

Lemma dict_get_In (d : dict V) (k : string) (v : V) :
  dict_get d k = Some v -> In k (keys d).
Proof.
  induction d as [|[k' v'] r IH]; simpl; [discriminate|].
  destruct (String.eqb k' k) eqn:E.
  - apply String.eqb_eq in E. now left.
  - intros H. right. now apply IH.
Qed.

End DictFacts.

Lemma alloc_step_NoDup (d : dict fl) (item : string) :
  NoDup (keys d) -> NoDup (keys (alloc_step d item)).
Proof.
  intros Hnd. unfold alloc_step.
  destruct (parse_item item) as [[k v]|]; [now apply dict_set_NoDup | exact Hnd].
Qed.

Lemma fold_alloc_NoDup (items : list string) (d : dict fl) :
  NoDup (keys d) -> NoDup (keys (fold_left alloc_step items d)).
Proof.
  revert d. induction items as [|item items IH]; intros d Hnd; simpl;
    [exact Hnd|].
  apply IH. now apply alloc_step_NoDup.
Qed.

(** Every ticker occurs once in the allocation map. *)
Lemma parse_allocations_NoDup (s : string) :
  NoDup (keys (parse_allocations s)).
Proof. apply fold_alloc_NoDup. constructor. Qed.

(** Every entry of the map was stored by some entry of the input. *)
Lemma fold_alloc_origin (items : list string) (d : dict fl) (k : string)
  (w : fl) :
  dict_get (fold_left alloc_step items d) k = Some w ->
  dict_get d k = Some w
  \/ exists item, In item items /\ parse_item item = Some (k, w).
Proof.
  revert d. induction items as [|item items IH]; intros d H; simpl in H;
    [now left|].
  destruct (IH _ H) as [Hd | [item' [Hin Hp]]].
  - unfold alloc_step in Hd.
    destruct (parse_item item) as [[k' v']|] eqn:Hp; [|now left].
    destruct (string_dec k k') as [->|Hne].
    + rewrite dict_get_set_same in Hd. inversion Hd; subst.
      right. exists item. split; [now left | exact Hp].
    + rewrite dict_get_set_other in Hd by exact Hne. now left.
  - right. exists item'. split; [now right | exact Hp].
Qed.

Lemma weight_interval (v : fl) :
  in_interval 0 1 (Fl.div v (Fin 100)) <-> in_interval 0 100 v.
Proof.
  destruct v as [q| | |]; simpl; try tauto.
  change (100 ?= 0) with Gt. cbn iota. unfold in_interval.
  unfold Qdiv. change (/ 100) with (1 # 100). lra.
Qed.

(** C9, as the code has it: every weight in the parsed map is the
    percentage of one entry of the input, as [float] reads it, divided by
    100, with no range check; it lies in [0,1] exactly when that percentage
    lies in [0,100]. *)
Theorem weight_is_percentage (s k : string) (w : fl) :
  dict_get (parse_allocations s) k = Some w ->
  exists item t p v,
    In item (split "," s)
    /\ split ":" item = [t; p]
    /\ k = upper (strip t)
    /\ py_float (strip p) = Some v
    /\ w = Fl.div v (Fin 100)
    /\ (in_interval 0 1 w <-> in_interval 0 100 v).
Proof.
  intros H. apply fold_alloc_origin in H.
  destruct H as [H | [item [Hin Hp]]]; [discriminate|].
  destruct (parse_item_inv _ _ _ Hp) as [t [p [v [Hs [Hf [Hk Hw]]]]]].
  exists item, t, p, v. repeat (split; [assumption|]).
  rewrite Hw. apply weight_interval.
Qed.

Lemma weight_is_percentage_witness :
  dict_get (parse_allocations "AAPL:40,MSFT:60") "MSFT" = Some (Fin (60 / 100))
  /\ exists item t p v,
       In item (split "," "AAPL:40,MSFT:60")
       /\ split ":" item = [t; p]
       /\ "MSFT"%string = upper (strip t)
       /\ py_float (strip p) = Some v
       /\ Fin (60 / 100) = Fl.div v (Fin 100)
       /\ (in_interval 0 1 (Fin (60 / 100)) <-> in_interval 0 100 v).
Proof.
  assert (H : dict_get (parse_allocations "AAPL:40,MSFT:60") "MSFT"
              = Some (Fin (60 / 100))) by reflexivity.
  split; [exact H|].
  exact (weight_is_percentage "AAPL:40,MSFT:60" "MSFT" (Fin (60 / 100)) H).
Defined.

(** C9, as the spec has it, fails: the entry [AAPL:150] is stored with the
    weight 1.5. *)
Lemma weight_outside_unit_interval :
  ~ (forall (s k : string) (w : fl),
        dict_get (parse_allocations s) k = Some w -> in_interval 0 1 w).
Proof.
  intros H.
  assert (Hw : dict_get (parse_allocations "AAPL:150") "AAPL"
               = Some (Fin (150 / 100))) by reflexivity.
  apply H in Hw. simpl in Hw. destruct Hw as [_ Hw].
  revert Hw. unfold Qle. simpl. lia.
Qed.

Lemma fold_alloc_other_keys (items : list string) (d : dict fl) (k : string) :
  (forall item k' w, In item items -> parse_item item = Some (k', w) -> k' <> k) ->
  dict_get (fold_left alloc_step items d) k = dict_get d k.
Proof.
  revert d. induction items as [|item items IH]; intros d Hk; simpl;
    [reflexivity|].
  rewrite IH by (intros item' k' w Hin; apply Hk; now right).
  unfold alloc_step. destruct (parse_item item) as [[k' v']|] eqn:Hp;
    [|reflexivity].
  apply dict_get_set_other. intros E.
  apply (Hk item k' v'); [now left | exact Hp | now symmetry].
Qed.

(** C10: when the input holds two well-formed entries whose tickers are
    equal after stripping and upper-casing, and no well-formed entry after
    the later one has that ticker again, the map has exactly one entry for
    the ticker and its weight is the later entry's. *)
Theorem later_entry_overwrites (s : string) (i j : nat)
  (e1 e2 t1 p1 t2 p2 : string) (v1 v2 : fl) :
  (i < j)%nat ->
  nth_error (split "," s) i = Some e1 ->
  nth_error (split "," s) j = Some e2 ->
  split ":" e1 = [t1; p1] -> py_float (strip p1) = Some v1 ->
  split ":" e2 = [t2; p2] -> py_float (strip p2) = Some v2 ->
  upper (strip t1) = upper (strip t2) ->
  (forall j' e k w,
      (j < j')%nat -> nth_error (split "," s) j' = Some e ->
      parse_item e = Some (k, w) -> k <> upper (strip t2)) ->
  dict_get (parse_allocations s) (upper (strip t2))
  = Some (Fl.div v2 (Fin 100))
  /\ count_occ string_dec (keys (parse_allocations s)) (upper (strip t2))
     = 1%nat.
Proof.
  intros Hij H1 H2 Hs1 Hf1 Hs2 Hf2 Hsame Hlast.
  assert (Hget : dict_get (parse_allocations s) (upper (strip t2))
                 = Some (Fl.div v2 (Fin 100))).
  { unfold parse_allocations.
    destruct (nth_error_split _ _ H2) as [l1 [l3 [Hitems Hlen]]].
    rewrite Hitems, fold_left_app. cbn [fold_left].
    rewrite fold_alloc_other_keys.
    - unfold alloc_step at 1, parse_item. rewrite Hs2, Hf2.
      apply dict_get_set_same.
    - intros item k' w Hin Hp.
      destruct (In_nth_error _ _ Hin) as [n Hn].
      apply (Hlast (j + 1 + n)%nat item k' w); [lia | | exact Hp].
      rewrite Hitems, nth_error_app2 by lia.
      replace (j + 1 + n - length l1)%nat with (S n) by lia.
      exact Hn. }
  split; [exact Hget|].
  apply NoDup_count_occ'; [apply parse_allocations_NoDup|].
  eapply dict_get_In. exact Hget.
Qed.

Lemma later_entry_overwrites_witness :
  dict_get (parse_allocations "aapl:40,MSFT:60, AAPL :25") "AAPL"
  = Some (Fl.div (Fin 25) (Fin 100))
  /\ count_occ string_dec
       (keys (parse_allocations "aapl:40,MSFT:60, AAPL :25")) "AAPL"%string
     = 1%nat.
Proof.
  apply (later_entry_overwrites "aapl:40,MSFT:60, AAPL :25" 0 2
           "aapl:40" " AAPL :25" "aapl" "40" " AAPL " "25" (Fin 40) (Fin 25));
    try reflexivity; try lia.
  intros j' e k w Hj He. exfalso.
  destruct j' as [|[|[|j']]]; try lia. destruct j'; discriminate He.
Defined.

(** ** Alignment of the price table *)

Lemma ffill_from_length (last : fl) (xs : series) :
  length (ffill_from last xs) = length xs.
Proof.
  revert last. induction xs as [|x t IH]; intros last; simpl; auto.
Qed.

Lemma last_valid_cons (init x : fl) (t : series) (i : nat) :
  last_valid init (x :: t) (S i)
  = last_valid (if Fl.isnan x then init else x) t i.
Proof.
  induction i as [|i IH].
  - simpl. destruct t as [|y t']; simpl.
    + unfold Fl.notna. destruct (Fl.isnan x); reflexivity.
    + unfold Fl.notna. destruct (Fl.isnan y); simpl; [|reflexivity].
      destruct (Fl.isnan x); reflexivity.
  - change (last_valid init (x :: t) (S (S i)))
      with (let v := nth (S i) t NaN in
            if Fl.notna v then v else last_valid init (x :: t) (S i)).
    cbv zeta. rewrite IH. reflexivity.
Qed.

(** Forward filling gives each row the last value at or above it. *)
Lemma ffill_from_nth (last : fl) (xs : series) (i : nat) :
  (i < length xs)%nat ->
  nth_error (ffill_from last xs) i = Some (last_valid last xs i).
Proof.
  revert last i. induction xs as [|x t IH]; intros last i Hi; simpl in Hi;
    [lia|].
  destruct i as [|i].
  - simpl. unfold Fl.notna. destruct (Fl.isnan x); reflexivity.
  - rewrite last_valid_cons. cbn [ffill_from nth_error]. apply IH. lia.
Qed.

Lemma dict_set_fresh {V : Type} (d : dict V) (k : string) (v : V) :
  ~ In k (keys d) -> dict_set d k v = d ++ [(k, v)].
Proof.
  induction d as [|[k' v'] r IH]; simpl; intros Hnin; [reflexivity|].
  destruct (String.eqb k' k) eqn:E.
  - apply String.eqb_eq in E. tauto.
  - f_equal. apply IH. tauto.
Qed.

Lemma dict_get_app {V : Type} (d d' : dict V) (k : string) :
  dict_get (d ++ d') k
  = match dict_get d k with Some v => Some v | None => dict_get d' k end.
Proof.
  induction d as [|[k' v'] r IH]; simpl; [reflexivity|].
  destruct (String.eqb k' k); [reflexivity | exact IH].
Qed.

Lemma dict_get_notin {V : Type} (d : dict V) (k : string) :
  ~ In k (keys d) -> dict_get d k = None.
Proof.
  intros Hnin. destruct (dict_get d k) eqn:E; [|reflexivity].
  apply dict_get_In in E. contradiction.
Qed.

Lemma dict_get_map_const {V : Type} (d : dict V) (k : string) (c v : V) :
  dict_get d k = Some v ->
  dict_get (map (fun e => (fst e, c)) d) k = Some c.
Proof.
  induction d as [|[k' v'] r IH]; simpl; [discriminate|].
  destruct (String.eqb k' k); [reflexivity | exact IH].
Qed.

Lemma keys_map_const {V : Type} (d : dict V) (c : V) :
  keys (map (fun e => (fst e, c)) d) = keys d.
Proof. unfold keys. rewrite map_map. reflexivity. Qed.

Lemma keys_app {V : Type} (d d' : dict V) :
  keys (d ++ d') = keys d ++ keys d'.
Proof. unfold keys. apply map_app. Qed.

Lemma find_app {A : Type} (p : A -> bool) (l l' : list A) :
  find p (l ++ l')
  = match find p l with Some x => Some x | None => find p l' end.
Proof.
  induction l as [|a l IH]; simpl; [reflexivity|].
  destruct (p a); [reflexivity | exact IH].
Qed.

Lemma value_at_head (d : date) (v : fl) (s : price_series) :
  value_at ((d, v) :: s) d = v.
Proof. unfold value_at. simpl. now rewrite Z.eqb_refl. Qed.

Lemma value_at_tail (d d' : date) (v : fl) (s : price_series) :
  d <> d' -> value_at ((d, v) :: s) d' = value_at s d'.
Proof.
  intros Hne. unfold value_at. simpl.
  destruct (Z.eqb_spec d d'); [contradiction | reflexivity].
Qed.

(** A series with distinct dates, aligned to its own dates, is itself. *)
Lemma reindex_self (s : price_series) :
  NoDup (map fst s) -> reindex s (map fst s) = map snd s.
Proof.
  induction s as [|[d v] s IH]; intros Hnd; [reflexivity|].
  inversion Hnd as [|? ? Hnin Hnd']; subst.
  unfold reindex in *. cbn [map fst snd]. rewrite value_at_head. f_equal.
  rewrite <- IH by exact Hnd'.
  apply map_ext_in. intros d' Hin. apply value_at_tail.
  intros ->. contradiction.
Qed.

Lemma first_index_none (download : string -> price_series)
  (done : list string) :
  first_index download done = [] ->
  find (fun t => has_data (download t)) done = None.
Proof.
  unfold first_index.
  destruct (find _ done) as [t|] eqn:Hf; [|reflexivity].
  apply find_some in Hf. destruct Hf as [_ Hd].
  destruct (download t); [discriminate|]. discriminate.
Qed.

Lemma no_data_before (download : string -> price_series)
  (done : list string) (t : string) :
  find (fun t => has_data (download t)) done = None ->
  In t done -> download t = [].
Proof.
  intros Hf Hin. apply (find_none _ _ Hf) in Hin.
  destruct (download t); [reflexivity | discriminate].
Qed.

Lemma set_column_keeps_index (download : string -> price_series)
  (done : list string) (prices : frame) (t : string) :
  prices_inv download done prices -> ~ In t done ->
  index prices <> [] \/ download t = [] ->
  prices_inv download (done ++ [t])
    {| index := index prices;
       columns := dict_set (columns prices) t
                           (reindex (download t) (index prices)) |}.
Proof.
  intros [Hk [Hi Hc]] Hnin Hcase.
  assert (Hfresh : ~ In t (keys (columns prices))) by now rewrite Hk.
  rewrite (dict_set_fresh _ _ _ Hfresh).
  split; [|split]; cbn [index columns].
  - rewrite keys_app, Hk. reflexivity.
  - rewrite Hi. unfold first_index. rewrite find_app.
    destruct (find _ done) as [t0|] eqn:Hf; [reflexivity|].
    destruct Hcase as [Hne | Hempty].
    + exfalso. apply Hne. rewrite Hi. unfold first_index. now rewrite Hf.
    + simpl. now rewrite Hempty.
  - intros t' Hin. rewrite dict_get_app.
    apply in_app_or in Hin. destruct Hin as [Hin | [<- | []]].
    + now rewrite (Hc t' Hin).
    + rewrite (dict_get_notin _ _ Hfresh). simpl.
      now rewrite String.eqb_refl.
Qed.

Lemma set_column_inv (download : string -> price_series)
  (done : list string) (prices : frame) (t : string) :
  prices_inv download done prices -> ~ In t done ->
  NoDup (map fst (download t)) ->
  prices_inv download (done ++ [t]) (set_column prices t (download t)).
Proof.
  intros Hinv Hnin Hnd. unfold set_column.
  destruct (index prices) as [|d0 idx0] eqn:Hidx.
  - destruct (download t) as [|p s'] eqn:Hs.
    + rewrite <- Hidx, <- Hs.
      apply set_column_keeps_index; auto.
    + rewrite <- Hs. destruct Hinv as [Hk [Hi Hc]].
      assert (Hnone : find (fun t => has_data (download t)) done = None)
        by (apply first_index_none; congruence).
      assert (Hfresh : ~ In t (keys (map (fun c => (fst c,
                           reindex [] (map fst (download t))))
                           (columns prices))))
        by (rewrite keys_map_const, Hk; exact Hnin).
      rewrite (dict_set_fresh _ _ _ Hfresh).
      split; [|split]; cbn [index columns].
      * rewrite keys_app, keys_map_const, Hk. reflexivity.
      * unfold first_index. rewrite find_app, Hnone. cbn [find].
        rewrite Hs. cbn [has_data]. now rewrite Hs.
      * intros t' Hin. rewrite dict_get_app.
        apply in_app_or in Hin. destruct Hin as [Hin | [<- | []]].
        -- rewrite (dict_get_map_const _ _ _ _ (Hc t' Hin)).
           now rewrite (no_data_before download done t' Hnone Hin).
        -- rewrite (dict_get_notin _ _ Hfresh). simpl.
           rewrite String.eqb_refl. f_equal. symmetry.
           rewrite Hs. now apply reindex_self.
  - rewrite <- Hidx.
    assert (Hkeep : prices_inv download (done ++ [t])
              {| index := index prices;
                 columns := dict_set (columns prices) t
                              (reindex (download t) (index prices)) |})
      by (apply set_column_keeps_index; auto; left; congruence).
    destruct (download t); exact Hkeep.
Qed.

Lemma download_loop_inv (download : string -> price_series)
  (todo done : list string) (prices : frame) :
  (forall t, NoDup (map fst (download t))) ->
  prices_inv download done prices -> NoDup (done ++ todo) ->
  prices_inv download (done ++ todo)
    (fold_left (fun prices t => set_column prices t (download t)) todo prices).
Proof.
  intros Hdates. revert done prices.
  induction todo as [|t todo IH]; intros done prices Hinv Hnd.
  - now rewrite app_nil_r.
  - cbn [fold_left].
    replace (done ++ t :: todo) with ((done ++ [t]) ++ todo) in *
      by (now rewrite <- app_assoc).
    apply IH; [|exact Hnd].
    apply set_column_inv; auto.
    apply NoDup_app_remove_r in Hnd.
    apply NoDup_remove_2 with (l' := []) in Hnd.
    now rewrite app_nil_r in Hnd.
Qed.

Lemma build_prices_inv (download : string -> price_series)
  (alloc_dict : dict fl) :
  (forall t, NoDup (map fst (download t))) ->
  NoDup (keys alloc_dict) ->
  prices_inv download (keys alloc_dict) (build_prices download alloc_dict).
Proof.
  intros Hdates Hnd. unfold build_prices.
  apply (download_loop_inv download (keys alloc_dict) [] empty_frame Hdates);
    [|exact Hnd].
  split; [reflexivity|]. split; [reflexivity|]. intros t [].
Qed.

Lemma dict_get_map_values {V W : Type} (f : V -> W) (d : dict V) (k : string) :
  dict_get (map (fun c => (fst c, f (snd c))) d) k
  = option_map f (dict_get d k).
Proof.
  induction d as [|[k' v'] r IH]; simpl; [reflexivity|].
  destruct (String.eqb k' k); [reflexivity | exact IH].
Qed.

Lemma dict_get_In_pair {V : Type} (d : dict V) (k : string) (v : V) :
  dict_get d k = Some v -> In (k, v) d.
Proof.
  induction d as [|[k' v'] r IH]; simpl; [discriminate|].
  destruct (String.eqb k' k) eqn:E.
  - apply String.eqb_eq in E. intros H. inversion H; subst. now left.
  - intros H. right. now apply IH.
Qed.

Lemma dict_In_get {V : Type} (d : dict V) (k : string) (v : V) :
  NoDup (keys d) -> In (k, v) d -> dict_get d k = Some v.
Proof.
  induction d as [|[k' v'] r IH]; simpl; intros Hnd Hin; [contradiction|].
  inversion Hnd as [|? ? Hnin Hnd']; subst.
  destruct Hin as [E | Hin].
  - inversion E; subst. now rewrite String.eqb_refl.
  - destruct (String.eqb k' k) eqn:E.
    + apply String.eqb_eq in E. subst k'. exfalso. apply Hnin.
      change k with (fst (k, v)). apply in_map. exact Hin.
    + now apply IH.
Qed.

(** The last value at or above a row is the value of the nearest row at
    or above it that has one. *)
Lemma last_valid_latest (init : fl) (xs : series) (i j : nat) :
  (j <= i)%nat -> Fl.notna (nth j xs NaN) = true ->
  (forall k, (j < k <= i)%nat -> nth k xs NaN = NaN) ->
  last_valid init xs i = nth j xs NaN.
Proof.
  intros Hji Hj Hgap. induction i as [|i IH].
  - assert (j = 0%nat) by lia. subst j. simpl. now rewrite Hj.
  - destruct (Nat.eq_dec j (S i)) as [->|Hne].
    + cbn [last_valid]. now rewrite Hj.
    + cbn [last_valid]. rewrite (Hgap (S i)) by lia. cbn [Fl.notna Fl.isnan negb].
      apply IH; [lia|]. intros k Hk. apply Hgap. lia.
Qed.

(** With no value at or above a row, nothing is filled in from below. *)
Lemma last_valid_none (init : fl) (xs : series) (i : nat) :
  (forall k, (k <= i)%nat -> nth k xs NaN = NaN) ->
  last_valid init xs i = init.
Proof.
  intros Hgap. induction i as [|i IH].
  - simpl. now rewrite (Hgap 0%nat) by lia.
  - cbn [last_valid]. rewrite (Hgap (S i)) by lia. cbn [Fl.notna Fl.isnan negb].
    apply IH. intros k Hk. apply Hgap. lia.
Qed.

Lemma pct_notna (cur prev : fl) :
  Fl.notna (Fl.sub (Fl.div cur prev) (Fin 1)) = true ->
  Fl.notna cur = true /\ Fl.notna prev = true.
Proof.
  destruct cur, prev; simpl; auto; discriminate.
Qed.

Lemma zip_pct_notna (xs ys : series) (i : nat) :
  Fl.notna
    (nth i (zip_with (fun cur prev => Fl.sub (Fl.div cur prev) (Fin 1)) xs ys)
         NaN) = true ->
  Fl.notna (nth i xs NaN) = true /\ Fl.notna (nth i ys NaN) = true.
Proof.
  revert ys i. induction xs as [|x xs IH]; intros ys i H.
  - destruct i; discriminate.
  - destruct ys as [|y ys]; [destruct i; discriminate|].
    destruct i as [|i]; simpl in *; [now apply pct_notna | now apply IH].
Qed.

(** A return is defined only below the first row, and only where the
    price and the price above it are. *)
Lemma pct_change_notna (c : series) (i : nat) :
  Fl.notna (nth i (pct_change c) NaN) = true ->
  (0 < i)%nat
  /\ Fl.notna (nth i c NaN) = true
  /\ Fl.notna (nth (i - 1) c NaN) = true.
Proof.
  destruct c as [|x t]; [destruct i; discriminate|].
  destruct i as [|i]; [discriminate|].
  cbn [pct_change nth]. intros H. apply zip_pct_notna in H.
  replace (S i - 1)%nat with i by lia. split; [lia | exact H].
Qed.

Lemma zip_with_nth (f : fl -> fl -> fl) (xs ys : series) (i : nat) :
  (i < length xs)%nat -> (i < length ys)%nat ->
  nth i (zip_with f xs ys) NaN = f (nth i xs NaN) (nth i ys NaN).
Proof.
  revert ys i. induction xs as [|x xs IH]; intros ys i Hx Hy; simpl in Hx;
    [lia|].
  destruct ys as [|y ys]; simpl in Hy; [lia|].
  destruct i as [|i]; simpl; [reflexivity|]. apply IH; lia.
Qed.

Lemma pct_price (cur prev : fl) :
  price_or_nan cur -> price_or_nan prev ->
  Fl.notna cur = true -> Fl.notna prev = true ->
  Fl.notna (Fl.sub (Fl.div cur prev) (Fin 1)) = true.
Proof.
  destruct cur as [a| | |], prev as [b| | |]; simpl; try tauto;
    try discriminate.
  intros _ Hb _ _. apply Qgt_alt in Hb. now rewrite Hb.
Qed.

(** With positive prices, a return is defined wherever the price and the
    price above it are. *)
Lemma pct_change_price (c : series) (i : nat) :
  Forall price_or_nan c -> (0 < i < length c)%nat ->
  Fl.notna (nth i c NaN) = true -> Fl.notna (nth (i - 1) c NaN) = true ->
  Fl.notna (nth i (pct_change c) NaN) = true.
Proof.
  intros Hc [Hpos Hi] Hcur Hprev.
  destruct c as [|x t]; [simpl in Hi; lia|].
  destruct i as [|i]; [lia|]. simpl in Hi.
  replace (S i - 1)%nat with i in Hprev by lia.
  cbn [pct_change nth]. rewrite zip_with_nth by (simpl; lia).
  assert (Hall : forall k, price_or_nan (nth k (x :: t) NaN)).
  { intros k. destruct (Nat.lt_ge_cases k (length (x :: t))) as [Hk|Hk].
    - now apply Forall_nth.
    - now rewrite nth_overflow. }
  apply pct_price; auto. apply (Hall (S i)).
Qed.

Lemma ffill_from_price (last : fl) (xs : series) :
  price_or_nan last -> Forall price_or_nan xs ->
  Forall price_or_nan (ffill_from last xs).
Proof.
  intros Hl Hxs. revert last Hl.
  induction Hxs as [|x t Hx _ IH]; intros last Hl; simpl; [constructor|].
  assert (Hv : price_or_nan (if Fl.isnan x then last else x))
    by (destruct (Fl.isnan x); assumption).
  constructor; [exact Hv | now apply IH].
Qed.

Lemma value_at_price (s : price_series) (d : date) :
  Forall (fun p => price_or_nan (snd p)) s -> price_or_nan (value_at s d).
Proof.
  intros Hs. unfold value_at.
  destruct (find (fun p => (fst p =? d)%Z) s) as [p|] eqn:Hf; [|exact I].
  apply find_some in Hf. destruct Hf as [Hin _].
  rewrite Forall_forall in Hs. now apply Hs.
Qed.

Lemma filled_price (s : price_series) (idx : list date) :
  Forall (fun p => price_or_nan (snd p)) s ->
  Forall price_or_nan (ffill (reindex s idx)).
Proof.
  intros Hs. apply ffill_from_price; [exact I|].
  unfold reindex. apply Forall_map, Forall_forall.
  intros d _. now apply value_at_price.
Qed.

Lemma filled_nth (s : price_series) (idx : list date) (i : nat) :
  (i < length idx)%nat ->
  nth_error (ffill (reindex s idx)) i = Some (last_observed s idx i).
Proof.
  intros Hi. unfold ffill, last_observed. apply ffill_from_nth.
  unfold reindex. now rewrite length_map.
Qed.

Lemma filled_length (s : price_series) (idx : list date) :
  length (ffill (reindex s idx)) = length idx.
Proof.
  unfold ffill, reindex. now rewrite ffill_from_length, length_map.
Qed.

Lemma filled_column (download : string -> price_series)
  (alloc_dict : dict fl) (t : string) :
  NoDup (keys alloc_dict) -> (forall t, NoDup (map fst (download t))) ->
  In t (keys alloc_dict) ->
  dict_get (columns (filled_prices download alloc_dict)) t
  = Some (ffill (reindex (download t)
                         (index (filled_prices download alloc_dict)))).
Proof.
  intros Hnd Hdates Hin.
  destruct (build_prices_inv download alloc_dict Hdates Hnd) as [_ [_ Hc]].
  unfold filled_prices. cbn [columns index].
  rewrite (dict_get_map_values ffill), (Hc t Hin). reflexivity.
Qed.

Lemma filled_keys (download : string -> price_series) (alloc_dict : dict fl) :
  NoDup (keys alloc_dict) -> (forall t, NoDup (map fst (download t))) ->
  keys (columns (filled_prices download alloc_dict)) = keys alloc_dict.
Proof.
  intros Hnd Hdates.
  destruct (build_prices_inv download alloc_dict Hdates Hnd) as [Hk _].
  unfold filled_prices. cbn [columns]. unfold keys in *.
  rewrite map_map. cbn [fst]. exact Hk.
Qed.

Lemma notna_not_nan (a : fl) : Fl.notna a = true <-> a <> NaN.
Proof.
  destruct a; simpl; split; intros H; try reflexivity; try discriminate;
    congruence.
Qed.

(** C3, as the code has it: the constituents' closes are aligned onto the
    dates of the first security of the weight map that has data; the
    closes other securities have on other dates are left out before any
    filling and are never used.  On that index the value of a security on
    a date is its close on the nearest date of the index, at or before
    that date, on which it has one ([last_observed]): gaps are filled
    forward only, never backward, so the dates of the index before its
    first close on a date of the index stay missing.  A date stays in the
    returns only if it is not the first of the index and every constituent
    has a value on it and on the date of the index before it, so every
    date with a missing constituent value is dropped and so is the first
    of the remaining dates; with positive prices exactly those dates
    stay. *)
Theorem prices_aligned_on_first_index (download : string -> price_series)
  (alloc_dict : dict fl) :
  NoDup (keys alloc_dict) ->
  (forall t, NoDup (map fst (download t))) ->
  let prices := filled_prices download alloc_dict in
  let idx := index prices in
  idx = first_index download (keys alloc_dict)
  /\ (forall t, In t (keys alloc_dict) ->
        exists col,
          dict_get (columns prices) t = Some col
          /\ length col = length idx
          /\ forall i, (i < length idx)%nat ->
               nth_error col i = Some (last_observed (download t) idx i))
  /\ (forall i, In i (kept_rows download alloc_dict) ->
        (0 < i < length idx)%nat
        /\ forall t, In t (keys alloc_dict) ->
             last_observed (download t) idx i <> NaN
             /\ last_observed (download t) idx (i - 1) <> NaN)
  /\ ((forall t, Forall (fun p => price_or_nan (snd p)) (download t)) ->
      forall i, (0 < i < length idx)%nat ->
        (forall t, In t (keys alloc_dict) ->
           last_observed (download t) idx i <> NaN
           /\ last_observed (download t) idx (i - 1) <> NaN) ->
        In i (kept_rows download alloc_dict)).
Proof.
  intros Hnd Hdates prices idx.
  destruct (build_prices_inv download alloc_dict Hdates Hnd) as [Hk [Hi Hc]].
  assert (Hidx : idx = index (build_prices download alloc_dict))
    by reflexivity.
  assert (Hcol : forall t, In t (keys alloc_dict) ->
            dict_get (columns prices) t
            = Some (ffill (reindex (download t) idx)))
    by (intros t Hin; now apply filled_column).
  assert (Hval : forall t i, (i < length idx)%nat ->
            nth i (ffill (reindex (download t) idx)) NaN
            = last_observed (download t) idx i).
  { intros t i Hlt. apply nth_error_nth. now apply filled_nth. }
  assert (Hrow : forall i x,
            In x (row (raw_returns download alloc_dict) i) <->
            exists k col, In (k, col) (columns prices)
                          /\ x = nth i (pct_change col) NaN).
  { intros i x. unfold row, raw_returns. fold prices. rewrite map_map, in_map_iff.
    split.
    - intros [[k col] [<- Hin]]. now exists k, col.
    - intros [k [col [Hin ->]]]. now exists (k, col). }
  split; [rewrite Hidx; exact Hi|]. split; [|split].
  - intros t Hin. exists (ffill (reindex (download t) idx)).
    split; [now apply Hcol|]. split; [apply filled_length|].
    intros i Hlt. now apply filled_nth.
  - intros i Hkept. unfold kept_rows, complete_rows in Hkept.
    apply filter_In in Hkept. destruct Hkept as [Hseq Hall].
    apply in_seq in Hseq. rewrite <- Hidx in Hseq.
    rewrite forallb_forall in Hall.
    assert (Hone : forall t, In t (keys alloc_dict) ->
              (0 < i)%nat
              /\ last_observed (download t) idx i <> NaN
              /\ last_observed (download t) idx (i - 1) <> NaN).
    { intros t Hin.
      assert (Hx : Fl.notna
                     (nth i (pct_change (ffill (reindex (download t) idx))) NaN)
                   = true).
      { apply Hall, Hrow. exists t, (ffill (reindex (download t) idx)).
        split; [|reflexivity]. apply dict_get_In_pair. now apply Hcol. }
      apply pct_change_notna in Hx. destruct Hx as [Hpos [Hcur Hprev]].
      rewrite Hval in Hcur by lia. rewrite Hval in Hprev by lia.
      split; [exact Hpos|]. split; now apply notna_not_nan. }
    assert (Hpos : (0 < i)%nat).
    { assert (Hne : first_index download (keys alloc_dict) <> []).
      { rewrite <- Hi, <- Hidx. intros E. rewrite E in Hseq. simpl in Hseq. lia. }
      unfold first_index in Hne.
      destruct (find (fun t => has_data (download t)) (keys alloc_dict))
        as [t0|] eqn:Hf; [|congruence].
      apply find_some in Hf. destruct Hf as [Hin _].
      now destruct (Hone t0 Hin). }
    split; [lia|]. intros t Hin. now destruct (Hone t Hin) as [_ H].
  - intros Hprices i [Hpos Hlt] Hdef. unfold kept_rows, complete_rows.
    apply filter_In. split; [apply in_seq; rewrite <- Hidx; lia|].
    apply forallb_forall. intros x Hx. apply Hrow in Hx.
    destruct Hx as [k [col [Hin ->]]].
    assert (Hkin : In k (keys alloc_dict)).
    { rewrite <- (filled_keys download alloc_dict Hnd Hdates).
      change k with (fst (k, col)). now apply in_map. }
    assert (Hget : dict_get (columns prices) k = Some col).
    { apply dict_In_get; [|exact Hin].
      unfold prices. now rewrite filled_keys. }
    rewrite (Hcol k Hkin) in Hget. inversion Hget as [Hc']; clear Hget.
    destruct (Hdef k Hkin) as [Hcur Hprev].
    apply pct_change_price.
    + now apply filled_price.
    + rewrite filled_length. lia.
    + rewrite Hval by lia. now apply notna_not_nan.
    + rewrite Hval by lia. now apply notna_not_nan.
Qed.

Lemma download_AB_dates (a1 a2 a4 b1 b2 b3 b4 : Q) (t : string) :
  NoDup (map fst (download_AB a1 a2 a4 b1 b2 b3 b4 t)).
Proof.
  unfold download_AB. destruct (String.eqb t "A"); cbn [map fst];
    repeat (constructor; [simpl; intuition discriminate|]); constructor.
Qed.

Lemma alloc_AB_keys : NoDup (keys alloc_AB).
Proof.
  repeat constructor; simpl; [intros [H | []]; discriminate H | tauto].
Qed.

Lemma alloc_BA_keys : NoDup (keys alloc_BA).
Proof.
  repeat constructor; simpl; [intros [H | []]; discriminate H | tauto].
Qed.

(** The gap-filling scenario, for any closes and weights: [A] trades on
    days 1, 2 and 4, [B] on days 1 to 4.  With [B] first in the map the
    table has the four days and [A] carries its close of day 2 on day 3;
    with [A] first the table has [A]'s three days only and [B]'s close of
    day 3 is left out. *)
Lemma gap_filling_scenario (a1 a2 a4 b1 b2 b3 b4 : Q) (wa wb : fl) :
  let download := download_AB a1 a2 a4 b1 b2 b3 b4 in
  filled_prices download [("B"%string, wb); ("A"%string, wa)]
  = {| index := [1; 2; 3; 4]%Z;
       columns := [("B"%string, [Fin b1; Fin b2; Fin b3; Fin b4]);
                   ("A"%string, [Fin a1; Fin a2; Fin a2; Fin a4])] |}
  /\ filled_prices download [("A"%string, wa); ("B"%string, wb)]
     = {| index := [1; 2; 4]%Z;
          columns := [("A"%string, [Fin a1; Fin a2; Fin a4]);
                      ("B"%string, [Fin b1; Fin b2; Fin b4])] |}.
Proof. split; reflexivity. Qed.

(** A close on a date that is not in the index is lost, also for the
    filling: with [A] (days 1, 2, 4) first and [B] trading on days 1 and 3
    only, [B] carries its close of day 1 on day 4, not the one of day 3. *)
Lemma off_index_close_not_used (a1 a2 a4 b1 b3 : Q) (wa wb : fl) :
  let download (t : string) : price_series :=
    if String.eqb t "A" then [(1%Z, Fin a1); (2%Z, Fin a2); (4%Z, Fin a4)]
    else [(1%Z, Fin b1); (3%Z, Fin b3)] in
  filled_prices download [("A"%string, wa); ("B"%string, wb)]
  = {| index := [1; 2; 4]%Z;
       columns := [("A"%string, [Fin a1; Fin a2; Fin a4]);
                   ("B"%string, [Fin b1; Fin b1; Fin b1])] |}.
Proof. reflexivity. Qed.

(** What is filled in depends on the closes on the dates of the index
    only. *)
Lemma last_observed_on_index (s s' : price_series) (idx : list date)
  (i : nat) :
  (forall d, In d idx -> value_at s d = value_at s' d) ->
  last_observed s idx i = last_observed s' idx i.
Proof.
  intros H. unfold last_observed, reindex.
  now rewrite (map_ext_in _ _ idx H).
Qed.

Lemma prices_aligned_on_first_index_witness :
  NoDup (keys alloc_BA)
  /\ (forall t, NoDup (map fst (sample_download t)))
  /\ index (filled_prices sample_download alloc_BA) = [1; 2; 3; 4]%Z
  /\ exists col,
       dict_get (columns (filled_prices sample_download alloc_BA)) "A"
       = Some col
       /\ nth_error col 2 = Some (Fin 11).
Proof.
  assert (Hnd : NoDup (keys alloc_BA)) by apply alloc_BA_keys.
  assert (Hdates : forall t, NoDup (map fst (sample_download t)))
    by (intros t; apply download_AB_dates).
  split; [exact Hnd|]. split; [exact Hdates|].
  destruct (prices_aligned_on_first_index sample_download alloc_BA Hnd Hdates)
    as [Hidx [Hcols _]].
  split; [exact Hidx|].
  destruct (Hcols "A"%string) as [col [Hget [_ Hnth]]];
    [simpl; tauto|].
  exists col. split; [exact Hget|].
  apply (Hnth 2%nat). simpl. lia.
Defined.

(** C3, as the spec has it, fails: the table is not built on the union of
    the dates.  With [A] (days 1, 2, 4) first in the map and [B] (days 1 to
    4) second, the table has no row for day 3, so no value of [A] on that
    day. *)
Lemma aligned_index_not_union :
  ~ (forall (download : string -> price_series) (alloc_dict : dict fl)
            (t : string) (d : date),
        NoDup (keys alloc_dict) ->
        (forall t, NoDup (map fst (download t))) ->
        In t (keys alloc_dict) ->
        In d (map fst (download t)) ->
        In d (index (filled_prices download alloc_dict))).
Proof.
  intros H.
  assert (Hnd : NoDup (keys alloc_AB)) by apply alloc_AB_keys.
  assert (Hin : In "B"%string (keys alloc_AB)) by (right; left; reflexivity).
  assert (Hd : In 3%Z (map fst (sample_download "B")))
    by (right; right; left; reflexivity).
  specialize (H sample_download alloc_AB "B"%string 3%Z Hnd
                (download_AB_dates 10 11 12 20 19 21 22) Hin Hd).
  change (In 3%Z [1; 2; 4]%Z) in H.
  destruct H as [H | [H | [H | []]]]; discriminate H.
Qed.

(** ** Worked examples *)

(** The default allocation text of the dashboard. *)
Example default_allocations :
  parse_allocations "AAPL:40,MSFT:40,GOOGL:20"
  = [("AAPL"%string, Fin (40 / 100)); ("MSFT"%string, Fin (40 / 100));
     ("GOOGL"%string, Fin (20 / 100))].
Proof. reflexivity. Qed.

(** Entries with white space, a missing colon, a percentage that is not a
    number, two colons, an empty entry, a repeated ticker and a negative
    percentage. *)
Example lenient_allocations :
  parse_allocations " aapl : 40 ,junk, msft:x, a:b:c, AAPL:150,,g:-5"
  = [("AAPL"%string, Fin (150 / 100)); ("G"%string, Fin (- 5 / 100))]
  /\ skipped " aapl : 40 ,junk, msft:x, a:b:c, AAPL:150,,g:-5"
     = ["junk"; " msft:x"; " a:b:c"; ""]%string.
Proof. split; reflexivity. Qed.

Example float_literals :
  map py_float ["abc"; ""; "1e"; "1__0"; "_1"; "1_"; "."; "0x10"; "1 2"]%string
  = [None; None; None; None; None; None; None; None; None]
  /\ map py_float ["inf"; "-Infinity"; "NaN"]%string
     = [Some PInf; Some NInf; Some NaN]
  /\ series_eq
       (map (fun s => match py_float s with Some v => v | None => NaN end)
            [" 40 "; "4e1"; "1_000.5"; "1."; ".5"; "1e-2"; "+.5E1"]%string)
       [Fin 40; Fin 40; Fin (2001 # 2); Fin 1; Fin (1 # 2); Fin (1 # 100);
        Fin 5].
Proof.
  split; [reflexivity|]. split; [reflexivity|].
  repeat constructor; vm_compute; reflexivity.
Qed.

(** [float] overflows on a literal at or above [2^1024 - 2^970]: the
    largest binary64 value is still read as a number, [1e400] is read as
    infinity and stored as an infinite weight. *)
Example float_overflows :
  py_float "1e400" = Some PInf
  /\ py_float "-1e400" = Some NInf
  /\ py_float "1.7976931348623159e308" = Some PInf
  /\ (exists v, py_float "1.7976931348623157e308" = Some (Fin v))
  /\ parse_allocations "AAPL:1e400" = [("AAPL"%string, PInf)].
Proof.
  split; [vm_compute; reflexivity|]. split; [vm_compute; reflexivity|].
  split; [vm_compute; reflexivity|].
  split; [eexists; vm_compute; reflexivity|]. vm_compute. reflexivity.
Qed.

(** Twenty-five closes rising by one a day: [sma200] is missing at every
    bar, [ema20] starts at 100, and [rsi14] is missing up to bar 12 and 100
    from bar 13 on, where the loss average is 0. *)
Example rising_closes :
  let t := fetch_data sqrt_approx (map Fin closes_25) in
  SMA_200 t = repeat NaN 25
  /\ nth_error (EMA_20 t) 0 = Some (Fin 100)
  /\ firstn 13 (RSI t) = repeat NaN 13
  /\ skipn 13 (RSI t) = repeat (Fin 100) 12
  /\ series_eq (skipn 13 (rsi_loss (map Fin closes_25))) (repeat (Fin 0) 12).
Proof.
  vm_compute. repeat split. repeat constructor.
Qed.

(** Two securities over five common days with equal weights: four daily
    returns, the first 0.5 * 0.1 + 0.5 * (-0.05), and a growth curve that
    starts at one plus that return. *)
Example two_securities :
  returns_index download_five alloc_AB = [2; 3; 4; 5]%Z
  /\ series_eq (firstn 1 (portfolio_return download_five alloc_AB))
               [Fin (1 # 40)]
  /\ length (fst (portfolio_performance sqrt_approx download_five alloc_AB))
     = 4%nat
  /\ series_eq
       (map snd
          (firstn 1 (fst (portfolio_performance sqrt_approx download_five
                                                alloc_AB))))
       [Fin (41 # 40)].
Proof.
  split; [reflexivity|]. split; [repeat constructor; vm_compute; reflexivity|].
  split; [reflexivity|]. repeat constructor; vm_compute; reflexivity.
Qed.

(** Constant prices: every return is 0, the volatility is 0 and the ratio
    takes the guarded value 0. *)
Example constant_prices_ratio :
  let download (t : string) : price_series :=
    [(1%Z, Fin 10); (2%Z, Fin 10); (3%Z, Fin 10)] in
  sharpe_ratio (snd (portfolio_performance sqrt_approx download alloc_AB))
  = Fin 0.
Proof. reflexivity. Qed.

(** * Further properties of the code *)

(** ** The indicator table *)

Lemma ewm_loop_length (alpha : Q) (xs : series) :
  forall (weighted : fl) (old_wt : Q),
    length (ewm_loop alpha weighted old_wt xs) = length xs.
Proof.
  induction xs as [|x t IH]; intros weighted old_wt; [reflexivity|].
  cbn [ewm_loop]. destruct (ewm_step alpha weighted old_wt x) as [w' o'].
  simpl. now rewrite IH.
Qed.

Lemma ewm_mean_length (span : Q) (xs : series) :
  length (ewm_mean span xs) = length xs.
Proof.
  unfold ewm_mean. rewrite <- (prep_values_length xs).
  destruct (prep_values xs) as [|x t]; [reflexivity|].
  simpl. now rewrite ewm_loop_length.
Qed.

Lemma rsi_gain_length (close : series) :
  length (rsi_gain close) = length close.
Proof.
  unfold rsi_gain, rolling_mean, where_, rsi_delta.
  now rewrite rolling_length, length_map, diff_length.
Qed.

Lemma rsi_loss_length (close : series) :
  length (rsi_loss close) = length close.
Proof.
  unfold rsi_loss, rolling_mean, where_, rsi_delta.
  now rewrite rolling_length, !length_map, diff_length.
Qed.

(** X1: every column [fetch_data] adds has one value per bar of the
    [Close] column, whatever the closes are (missing ones included). *)
Theorem fetch_data_lengths (sqrtQ : Q -> Q) (close : series) :
  let t := fetch_data sqrtQ close in
  length (SMA_50 t) = length close
  /\ length (SMA_200 t) = length close
  /\ length (EMA_20 t) = length close
  /\ length (Upper_BB t) = length close
  /\ length (Lower_BB t) = length close
  /\ length (RSI t) = length close.
Proof.
  unfold fetch_data. cbn [SMA_50 SMA_200 EMA_20 Upper_BB Lower_BB RSI].
  unfold rolling_mean, rolling_std.
  rewrite !zip_with_length, !length_map, !rolling_length, ewm_mean_length,
    zip_with_length, rsi_gain_length, rsi_loss_length.
  repeat split; lia.
Qed.

Lemma filter_length_lt {A : Type} (f : A -> bool) (l : list A) (x : A) :
  In x l -> f x = false -> (length (filter f l) < length l)%nat.
Proof.
  induction l as [|a l IH]; intros Hin Hf; [contradiction|].
  simpl. destruct Hin as [-> | Hin].
  - rewrite Hf. assert (H := filter_length_le f l). lia.
  - destruct (f a); simpl; [apply IH in Hin; auto; lia|].
    assert (H := filter_length_le f l). lia.
Qed.

Lemma window_length_le (w i : nat) (xs : series) :
  (length (window w i xs) <= Nat.min w (i + 1))%nat.
Proof.
  unfold window. rewrite length_skipn, length_firstn. lia.
Qed.

(** A rolling value is missing before [w] bars exist, whatever the series
    holds. *)
Lemma rolling_early (w : nat) (agg : series -> fl) (xs : series) (i : nat) :
  (i < length xs)%nat -> (i + 1 < w)%nat ->
  nth_error (rolling w agg xs) i = Some NaN.
Proof.
  intros Hi Hw. rewrite rolling_nth by exact Hi. cbv zeta.
  assert (H1 := filter_length_le Fl.notna (window w i (prep_values xs))).
  assert (H2 := window_length_le w i (prep_values xs)).
  unfold observations.
  destruct (Nat.ltb_spec
              (length (filter Fl.notna (window w i (prep_values xs)))) w);
    [reflexivity | lia].
Qed.

(** A rolling value is missing when a value of its window is. *)
Lemma rolling_missing (w : nat) (agg : series -> fl) (xs : series)
  (i j : nat) :
  (i < length xs)%nat -> (j <= i < j + w)%nat ->
  nth_error xs j = Some NaN ->
  nth_error (rolling w agg xs) i = Some NaN.
Proof.
  intros Hi [Hji Hiw] Hj. rewrite rolling_nth by exact Hi. cbv zeta.
  assert (Hin : In NaN (window w i (prep_values xs))).
  { apply (nth_error_In _ (j - (i + 1 - w))). unfold window.
    rewrite nth_error_skipn, nth_error_firstn.
    replace (i + 1 - w + (j - (i + 1 - w)))%nat with j by lia.
    destruct (Nat.ltb_spec j (i + 1));
      [now apply prep_values_missing | lia]. }
  assert (H1 := filter_length_lt Fl.notna _ _ Hin eq_refl).
  assert (H2 := window_length_le w i (prep_values xs)).
  unfold observations.
  destruct (Nat.ltb_spec
              (length (filter Fl.notna (window w i (prep_values xs)))) w);
    [reflexivity | lia].
Qed.

(** X2: on every series, [rsi14] is missing at each of the first thirteen
    bars; a series of fewer than fourteen bars has no RSI value at all. *)
Theorem rsi_needs_fourteen_bars (sqrtQ : Q -> Q) (close : series) (i : nat) :
  (i < length close)%nat -> (i < 13)%nat ->
  nth_error (RSI (fetch_data sqrtQ close)) i = Some NaN.
Proof.
  intros Hi H13.
  assert (Hg : nth_error (rsi_gain close) i = Some NaN).
  { unfold rsi_gain, rolling_mean. apply rolling_early; [|lia].
    unfold where_, rsi_delta. now rewrite length_map, diff_length. }
  assert (Hl : nth_error (rsi_loss close) i = Some NaN).
  { unfold rsi_loss, rolling_mean. apply rolling_early; [|lia].
    unfold where_, rsi_delta. now rewrite !length_map, diff_length. }
  rewrite (rsi_nth sqrtQ close i _ _ Hg Hl). reflexivity.
Qed.

Lemma rsi_needs_fourteen_bars_witness :
  nth_error (RSI (fetch_data sqrt_approx [Fin 10; NaN; PInf; Fin 12])) 2
  = Some NaN.
Proof.
  apply (rsi_needs_fourteen_bars sqrt_approx [Fin 10; NaN; PInf; Fin 12] 2);
    simpl; lia.
Defined.



(** X4: one missing close blanks every rolling column whose window holds
    it: [sma50] at the 50 bars from it on, [sma200] at the 200 bars from it
    on, and both bands at the 20 bars from it on. *)
Theorem missing_close_blanks_windows (sqrtQ : Q -> Q) (close : series)
  (i j : nat) :
  (i < length close)%nat -> (j <= i)%nat ->
  nth_error close j = Some NaN ->
  let t := fetch_data sqrtQ close in
  ((i < j + 50)%nat -> nth_error (SMA_50 t) i = Some NaN)
  /\ ((i < j + 200)%nat -> nth_error (SMA_200 t) i = Some NaN)
  /\ ((i < j + 20)%nat ->
      nth_error (Upper_BB t) i = Some NaN
      /\ nth_error (Lower_BB t) i = Some NaN).
Proof.
  intros Hi Hji Hj t. subst t. unfold fetch_data.
  cbn [SMA_50 SMA_200 Upper_BB Lower_BB].
  split; [|split].
  - intros Hw. unfold rolling_mean. apply (rolling_missing 50 _ _ i j); auto.
  - intros Hw. unfold rolling_mean. apply (rolling_missing 200 _ _ i j); auto.
  - intros Hw.
    assert (Hs : nth_error (rolling_std sqrtQ 20 close) i = Some NaN)
      by (unfold rolling_std; apply (rolling_missing 20 _ _ i j); auto).
    assert (H2 : nth_error (map (Fl.mul (Fin 2)) (rolling_std sqrtQ 20 close)) i
                 = Some NaN)
      by (rewrite nth_error_map, Hs; reflexivity).
    destruct (nth_error (ewm_mean 20 close) i) as [e|] eqn:He.
    + split.
      * rewrite (nth_error_zip_with Fl.add _ _ _ _ _ He H2).
        destruct e; reflexivity.
      * rewrite (nth_error_zip_with Fl.sub _ _ _ _ _ He H2).
        destruct e; reflexivity.
    + apply nth_error_None in He. rewrite ewm_mean_length in He. lia.
Qed.

Lemma missing_close_blanks_windows_witness :
  nth_error (SMA_50 (fetch_data sqrt_approx [Fin 1; NaN; Fin 3])) 2 = Some NaN.
Proof.
  assert (Hi : (2 < length [Fin 1; NaN; Fin 3])%nat) by (simpl; lia).
  assert (Hji : (1 <= 2)%nat) by lia.
  assert (Hj : nth_error [Fin 1; NaN; Fin 3] 1 = Some NaN) by reflexivity.
  assert (Hw : (2 < 1 + 50)%nat) by lia.
  exact (proj1 (missing_close_blanks_windows sqrt_approx _ 2 1 Hi Hji Hj) Hw).
Defined.

Lemma ewm_step_missing (alpha : Q) (weighted : fl) (old_wt : Q) :
  fst (ewm_step alpha weighted old_wt NaN) = weighted.
Proof. unfold ewm_step. destruct (Fl.isnan weighted); reflexivity. Qed.

Lemma ewm_loop_missing (alpha : Q) (xs : series) :
  forall (weighted : fl) (old_wt : Q) (j : nat),
    nth_error xs j = Some NaN ->
    nth_error (ewm_loop alpha weighted old_wt xs) j
    = nth_error (weighted :: ewm_loop alpha weighted old_wt xs) j.
Proof.
  induction xs as [|x t IH]; intros weighted old_wt j Hj;
    [destruct j; discriminate|].
  cbn [ewm_loop].
  destruct (ewm_step alpha weighted old_wt x) as [w' o'] eqn:Hstep.
  destruct j as [|j].
  - simpl in Hj. inversion Hj; subst x.
    assert (H := ewm_step_missing alpha weighted old_wt).
    rewrite Hstep in H. simpl in H. subst w'. reflexivity.
  - simpl in Hj. cbn [nth_error]. now apply IH.
Qed.

(** X5: at a bar whose close is missing (other than the first), [ema20]
    repeats its value of the bar before: the average is carried over the
    gap, not reset. *)
Theorem ema_carried_over_gap (sqrtQ : Q -> Q) (close : series) (i : nat) :
  (0 < i)%nat -> nth_error close i = Some NaN ->
  let ema := EMA_20 (fetch_data sqrtQ close) in
  nth_error ema i = nth_error ema (i - 1).
Proof.
  intros Hpos Hi ema. subst ema. unfold fetch_data. cbn [EMA_20].
  apply prep_values_missing in Hi. unfold ewm_mean.
  destruct (prep_values close) as [|x t]; [destruct i; discriminate|].
  destruct i as [|j]; [lia|].
  replace (S j - 1)%nat with j by lia.
  cbn [nth_error]. simpl in Hi. now apply ewm_loop_missing.
Qed.

Lemma ema_carried_over_gap_witness :
  nth_error (EMA_20 (fetch_data sqrt_approx [Fin 10; NaN; Fin 12])) 1
  = nth_error (EMA_20 (fetch_data sqrt_approx [Fin 10; NaN; Fin 12])) 0.
Proof.
  assert (Hpos : (0 < 1)%nat) by lia.
  assert (Hi : nth_error [Fin 10; NaN; Fin 12] 1 = Some NaN) by reflexivity.
  exact (ema_carried_over_gap sqrt_approx [Fin 10; NaN; Fin 12] 1 Hpos Hi).
Defined.

Lemma ewm_loop_bounded (lo hi : Q) (qs : list Q) :
  Forall (fun q => lo <= q <= hi) qs ->
  forall e0 : Q, lo <= e0 <= hi ->
  exists es : list Q,
    ewm_loop (ewm_alpha 20) (Fin e0) 1 (map Fin qs) = map Fin es
    /\ Forall (fun e => lo <= e <= hi) es.
Proof.
  induction 1 as [|q qs Hq _ IH]; intros e0 He0.
  - exists []. split; [reflexivity | constructor].
  - destruct (ewm_step_fin e0 q) as [e' [Hstep He']].
    assert (Hb : lo <= e' <= hi) by (rewrite He'; lra).
    destruct (IH e' Hb) as [es [Hes Hall]].
    exists (e' :: es). cbn [map ewm_loop]. rewrite Hstep, Hes.
    split; [reflexivity | now constructor].
Qed.

(** X6: [ema20] never leaves the range of the closes: when every close of
    a series lies between [lo] and [hi], so does [ema20] at every bar. *)
Theorem ema_within_closes (sqrtQ : Q -> Q) (closes : list Q) (lo hi : Q)
  (i : nat) :
  Forall (fun q => lo <= q <= hi) closes ->
  (i < length closes)%nat ->
  exists e,
    nth_error (EMA_20 (fetch_data sqrtQ (map Fin closes))) i = Some (Fin e)
    /\ lo <= e <= hi.
Proof.
  intros Hall Hi. unfold fetch_data. cbn [EMA_20].
  destruct closes as [|c t]; [simpl in Hi; lia|].
  inversion Hall as [|? ? Hc Ht]; subst.
  destruct (ewm_loop_bounded lo hi t Ht c Hc) as [es [Hes Hbound]].
  unfold ewm_mean. rewrite prep_values_fin. cbn [map]. rewrite Hes.
  change (Fin c :: map Fin es) with (map Fin (c :: es)).
  assert (Hlen : length es = length t).
  { apply (f_equal (@length fl)) in Hes.
    now rewrite ewm_loop_length, !length_map in Hes. }
  exists (nth i (c :: es) 0). split.
  - apply nth_error_map_fin. simpl in *. lia.
  - assert (Hall' : Forall (fun e => lo <= e <= hi) (c :: es))
      by now constructor.
    rewrite Forall_forall in Hall'. apply Hall'. apply nth_In.
    simpl in *. lia.
Qed.

Lemma ema_within_closes_witness :
  exists e,
    nth_error (EMA_20 (fetch_data sqrt_approx (map Fin [100; 104; 102]))) 2
    = Some (Fin e)
    /\ 100 <= e <= 104.
Proof.
  assert (Hall : Forall (fun q => 100 <= q <= 104) [100; 104; 102])
    by (repeat constructor; unfold Qle; simpl; lia).
  assert (Hi : (2 < length [100; 104; 102])%nat) by (simpl; lia).
  exact (ema_within_closes sqrt_approx [100; 104; 102] 100 104 2 Hall Hi).
Defined.

(** X7: on every series of finite closes and at every bar from 19 on, the
    two bands are numbers placed symmetrically about [ema20] (their sum is
    twice [ema20]), and with a square root that is never negative the lower
    band is at most [ema20] and [ema20] at most the upper band. *)
Theorem bands_symmetric (sqrtQ : Q -> Q) (closes : list Q) (i : nat) :
  (19 <= i < length closes)%nat ->
  let t := fetch_data sqrtQ (map Fin closes) in
  exists e u l,
    nth_error (EMA_20 t) i = Some (Fin e)
    /\ nth_error (Upper_BB t) i = Some (Fin u)
    /\ nth_error (Lower_BB t) i = Some (Fin l)
    /\ u + l == 2 * e
    /\ ((forall x, 0 <= sqrtQ x) -> l <= e <= u).
Proof.
  intros [H19 Hi] t. subst t. unfold fetch_data.
  cbn [EMA_20 Upper_BB Lower_BB].
  destruct (ewm_mean_fin closes) as [es [Hes Hlen]].
  assert (He : nth_error (ewm_mean 20 (map Fin closes)) i
               = Some (Fin (nth i es 0)))
    by (rewrite Hes; apply nth_error_map_fin; lia).
  destruct (rolling_std_fin sqrtQ 20 closes i) as [v [Hv _]]; [lia..|].
  assert (H2 : nth_error (map (Fl.mul (Fin 2))
                              (rolling_std sqrtQ 20 (map Fin closes))) i
               = Some (Fin (2 * sqrtQ v)))
    by (rewrite nth_error_map, Hv; reflexivity).
  exists (nth i es 0), (nth i es 0 + 2 * sqrtQ v), (nth i es 0 - 2 * sqrtQ v).
  split; [exact He|].
  split; [rewrite (nth_error_zip_with Fl.add _ _ _ _ _ He H2); reflexivity|].
  split; [rewrite (nth_error_zip_with Fl.sub _ _ _ _ _ He H2); reflexivity|].
  split; [ring|].
  intros Hs. assert (H := Hs v). lra.
Qed.

Lemma sqrt_approx_nonneg (x : Q) : 0 <= sqrt_approx x.
Proof.
  unfold sqrt_approx. apply Qle_shift_div_l; [reflexivity|].
  rewrite Qmult_0_l. change 0 with (inject_Z 0). rewrite <- Zle_Qle.
  apply Z.sqrt_nonneg.
Qed.

Lemma bands_symmetric_witness :
  (19 <= 19 < length closes_25)%nat
  /\ exists e u l,
       nth_error (EMA_20 (fetch_data sqrt_approx (map Fin closes_25))) 19
       = Some (Fin e)
       /\ nth_error (Upper_BB (fetch_data sqrt_approx (map Fin closes_25))) 19
          = Some (Fin u)
       /\ nth_error (Lower_BB (fetch_data sqrt_approx (map Fin closes_25))) 19
          = Some (Fin l)
       /\ u + l == 2 * e
       /\ l <= e <= u.
Proof.
  assert (Hi : (19 <= 19 < length closes_25)%nat) by (vm_compute; lia).
  split; [exact Hi|].
  destruct (bands_symmetric sqrt_approx closes_25 19 Hi)
    as [e [u [l [He [Hu [Hl [Hsum Hord]]]]]]].
  exists e, u, l. repeat (split; [assumption|]).
  exact (Hord sqrt_approx_nonneg).
Defined.

(** ** Tickers and allocation keys *)

Lemma upper_char_idem (c : ascii) : upper_char (upper_char c) = upper_char c.
Proof. destruct c as [[] [] [] [] [] [] [] []]; reflexivity. Qed.

Lemma is_space_upper (c : ascii) : is_space (upper_char c) = is_space c.
Proof. destruct c as [[] [] [] [] [] [] [] []]; reflexivity. Qed.

Lemma lstrip_idem (cs : chars) : lstrip (lstrip cs) = lstrip cs.
Proof.
  induction cs as [|c t IH]; [reflexivity|]. simpl.
  destruct (is_space c) eqn:E; [exact IH|]. simpl. now rewrite E.
Qed.

Lemma lstrip_map_upper (cs : chars) :
  lstrip (map upper_char cs) = map upper_char (lstrip cs).
Proof.
  induction cs as [|c t IH]; [reflexivity|]. simpl.
  rewrite is_space_upper. destruct (is_space c); [exact IH | reflexivity].
Qed.

Lemma rstrip_map_upper (cs : chars) :
  rstrip (map upper_char cs) = map upper_char (rstrip cs).
Proof.
  unfold rstrip. now rewrite <- map_rev, lstrip_map_upper, map_rev.
Qed.

Lemma lstrip_snoc (l : chars) (c : ascii) :
  is_space c = false -> lstrip (l ++ [c]) = lstrip l ++ [c].
Proof.
  intros Hc. induction l as [|a l IH]; simpl; [now rewrite Hc|].
  destruct (is_space a); [exact IH | reflexivity].
Qed.

(** What [lstrip] returns does not start with white space. *)
Lemma lstrip_head (cs : chars) :
  match lstrip cs with [] => True | c :: _ => is_space c = false end.
Proof.
  induction cs as [|c t IH]; [exact I|]. simpl.
  destruct (is_space c) eqn:E; [exact IH | exact E].
Qed.

Lemma lstrip_rstrip_lstrip (cs : chars) :
  lstrip (rstrip (lstrip cs)) = rstrip (lstrip cs).
Proof.
  assert (H := lstrip_head cs). destruct (lstrip cs) as [|c t]; [reflexivity|].
  unfold rstrip. cbn [rev]. rewrite lstrip_snoc by exact H.
  rewrite rev_app_distr. simpl. now rewrite H.
Qed.

Lemma rstrip_idem (cs : chars) : rstrip (rstrip cs) = rstrip cs.
Proof. unfold rstrip. now rewrite rev_involutive, lstrip_idem. Qed.

Lemma strip_idem (s : string) : strip (strip s) = strip s.
Proof.
  unfold strip. rewrite list_ascii_of_string_of_list_ascii.
  now rewrite lstrip_rstrip_lstrip, rstrip_idem.
Qed.

Lemma upper_idem (s : string) : upper (upper s) = upper s.
Proof.
  unfold upper. rewrite list_ascii_of_string_of_list_ascii, map_map.
  f_equal. apply map_ext. apply upper_char_idem.
Qed.

Lemma strip_upper (s : string) : strip (upper s) = upper (strip s).
Proof.
  unfold strip, upper. rewrite !list_ascii_of_string_of_list_ascii.
  now rewrite lstrip_map_upper, rstrip_map_upper.
Qed.

(** A stripped, upper-cased text is a fixed point of both operations. *)
Lemma normalised (t : string) :
  strip (upper (strip t)) = upper (strip t)
  /\ upper (upper (strip t)) = upper (strip t).
Proof.
  split; [now rewrite strip_upper, strip_idem | apply upper_idem].
Qed.

Lemma keys_In_get {V : Type} (d : dict V) (k : string) :
  In k (keys d) -> exists v, dict_get d k = Some v.
Proof.
  induction d as [|[k' v'] r IH]; simpl; [contradiction|].
  intros [-> | Hin].
  - exists v'. now rewrite String.eqb_refl.
  - destruct (String.eqb k' k); [now exists v'|]. now apply IH.
Qed.

(** A piece between separators holds no separator. *)
Lemma split_pieces_no_sep (sep : ascii) (u : string) :
  Forall (fun x => count_char sep x = 0%nat) (split sep u).
Proof.
  induction u as [|a u IH]; simpl; [repeat constructor|].
  destruct (Ascii.eqb a sep) eqn:E; [constructor; [reflexivity | exact IH]|].
  destruct (split sep u) as [|h r];
    [repeat constructor; simpl; now rewrite E|].
  inversion IH; subst. constructor; [simpl; now rewrite E | assumption].
Qed.

(** A piece holds no more of any character than the whole text. *)
Lemma count_char_split_le (c sep : ascii) (u x : string) :
  In x (split sep u) -> (count_char c x <= count_char c u)%nat.
Proof.
  revert x. induction u as [|a u IH]; intros x Hx; simpl in Hx.
  - destruct Hx as [<- | []]. simpl. lia.
  - destruct (Ascii.eqb a sep) eqn:E.
    + destruct Hx as [<- | Hx]; simpl; [lia|].
      specialize (IH x Hx). destruct (Ascii.eqb a c); lia.
    + destruct (split sep u) as [|h r] eqn:Hsp.
      * destruct Hx as [<- | []]. simpl. destruct (Ascii.eqb a c); lia.
      * destruct Hx as [<- | Hx].
        -- assert (IHh := IH h (or_introl eq_refl)). simpl.
           destruct (Ascii.eqb a c); lia.
        -- assert (IHx := IH x (or_intror Hx)). simpl.
           destruct (Ascii.eqb a c); lia.
Qed.

(** A text without the separator is its own single piece. *)
Lemma split_no_sep (sep : ascii) (u : string) :
  count_char sep u = 0%nat -> split sep u = [u].
Proof.
  induction u as [|a u IH]; simpl; [reflexivity|].
  destruct (Ascii.eqb a sep); [discriminate|].
  intros H0. now rewrite (IH H0).
Qed.

(** X8: every key of the allocation map is in normal form: stripping it or
    upper-casing it again changes nothing, and it is the very entry that
    [tickers] makes of the same ticker text. *)
Theorem allocation_keys_normalised (s k : string) :
  In k (keys (parse_allocations s)) ->
  strip k = k /\ upper k = k
  /\ exists item t p,
       In item (split "," s) /\ split ":" item = [t; p]
       /\ tickers t = [k].
Proof.
  intros Hin. apply keys_In_get in Hin. destruct Hin as [w Hget].
  apply fold_alloc_origin in Hget.
  destruct Hget as [Hget | [item [Hin Hp]]]; [discriminate|].
  destruct (parse_item_inv _ _ _ Hp) as [t [p [v [Hs [_ [Hk _]]]]]].
  subst k. destruct (normalised t) as [H1 H2].
  split; [exact H1|]. split; [exact H2|].
  exists item, t, p. split; [exact Hin|]. split; [exact Hs|].
  unfold tickers.
  assert (Hi0 : count_char "," item = 0%nat).
  { assert (H := split_pieces_no_sep "," s). rewrite Forall_forall in H.
    now apply H. }
  assert (Ht : In t (split ":" item)) by (rewrite Hs; now left).
  apply (count_char_split_le "," ":") in Ht.
  rewrite split_no_sep by lia. reflexivity.
Qed.

Lemma allocation_keys_normalised_witness :
  strip "AAPL" = "AAPL"%string /\ upper "AAPL" = "AAPL"%string.
Proof.
  assert (Hin : In "AAPL"%string (keys (parse_allocations " aapl :40")))
    by (left; reflexivity).
  destruct (allocation_keys_normalised " aapl :40" "AAPL" Hin) as [H1 [H2 _]].
  split; [exact H1 | exact H2].
Defined.

(** X12: the ticker list has one entry per comma-separated piece of the
    ticker box, so it is never empty (an empty box gives one ticker), and
    every entry is in normal form. *)
Theorem tickers_normalised (tickers_input : string) :
  length (tickers tickers_input) = S (count_char "," tickers_input)
  /\ Forall (fun t => strip t = t /\ upper t = t) (tickers tickers_input).
Proof.
  unfold tickers. split; [now rewrite length_map, split_length|].
  apply Forall_map, Forall_forall. intros t _. apply normalised.
Qed.

Lemma dict_set_not_nil {V : Type} (d : dict V) (k : string) (v : V) :
  dict_set d k v <> [].
Proof.
  destruct d as [|[k' v'] r]; simpl; [discriminate|].
  destruct (String.eqb k' k); discriminate.
Qed.

Lemma fold_alloc_nil (items : list string) (d : dict fl) :
  fold_left alloc_step items d = [] ->
  d = [] /\ Forall (fun item => parse_item item = None) items.
Proof.
  revert d. induction items as [|item items IH]; intros d H; simpl in H;
    [split; [exact H | constructor]|].
  destruct (IH _ H) as [Hd Hall]. unfold alloc_step in Hd.
  destruct (parse_item item) as [[k v]|] eqn:Hp.
  - exfalso. exact (dict_set_not_nil d k v Hd).
  - split; [exact Hd | now constructor].
Qed.

Lemma fold_alloc_none (items : list string) (d : dict fl) :
  Forall (fun item => parse_item item = None) items ->
  fold_left alloc_step items d = d.
Proof.
  intros H. revert d. induction H as [|item items Hp _ IH]; intros d;
    [reflexivity|].
  simpl. unfold alloc_step at 2. rewrite Hp. apply IH.
Qed.

(** X10: the allocation map is empty exactly when no entry of the box is
    well formed (the dashboard then shows no portfolio); in particular
    when the box holds no colon at all. *)
Theorem allocation_map_empty (s : string) :
  (parse_allocations s = [] <->
   Forall (fun item => parse_item item = None) (split "," s))
  /\ (count_char ":" s = 0%nat -> parse_allocations s = []).
Proof.
  assert (H1 : parse_allocations s = [] <->
               Forall (fun item => parse_item item = None) (split "," s)).
  { unfold parse_allocations. split.
    - intros H. now apply fold_alloc_nil in H.
    - intros H. now apply fold_alloc_none. }
  split; [exact H1|].
  intros Hc. apply H1. apply Forall_forall. intros item Hin.
  apply parse_item_colons.
  assert (H := count_char_split_le ":" "," s item Hin). lia.
Qed.

Lemma allocation_map_empty_witness : parse_allocations "AAPL,MSFT 40" = [].
Proof.
  assert (Hc : count_char ":" "AAPL,MSFT 40" = 0%nat) by reflexivity.
  exact (proj2 (allocation_map_empty "AAPL,MSFT 40") Hc).
Defined.

Lemma somes_app {A : Type} (l l' : list (option A)) :
  somes (l ++ l') = somes l ++ somes l'.
Proof.
  induction l as [|[a|] l IH]; simpl; [reflexivity | now rewrite IH | exact IH].
Qed.

Lemma keys_dict_set_old {V : Type} (d : dict V) (k : string) (v : V) :
  In k (keys d) -> keys (dict_set d k v) = keys d.
Proof.
  intros Hin. destruct (keys_dict_set d k v) as [H | [Hnin _]];
    [exact H | contradiction].
Qed.

Lemma keys_dict_set_new {V : Type} (d : dict V) (k : string) (v : V) :
  ~ In k (keys d) -> keys (dict_set d k v) = keys d ++ [k].
Proof.
  intros Hnin. rewrite dict_set_fresh by exact Hnin. apply keys_app.
Qed.

(** X9: the keys of the allocation map stand in the order in which their
    tickers first appear among the well-formed entries; a repeated ticker
    keeps the place of its first entry. *)
Theorem allocation_keys_order (s : string) :
  keys (parse_allocations s)
  = rev (nodup string_dec (rev (somes (map entry_key (split "," s))))).
Proof.
  unfold parse_allocations.
  induction (split "," s) as [|item items IH] using rev_ind; [reflexivity|].
  rewrite fold_left_app, map_app, somes_app. cbn [fold_left map].
  unfold alloc_step at 1, entry_key at 2.
  destruct (parse_item item) as [[k v]|]; cbn [option_map somes fst].
  - rewrite rev_app_distr. cbn [rev app nodup].
    destruct (in_dec string_dec k (rev (somes (map entry_key items))))
      as [Hin | Hnin].
    + rewrite keys_dict_set_old; [exact IH|].
      rewrite IH. apply -> in_rev. now apply nodup_In.
    + rewrite keys_dict_set_new.
      * cbn [rev]. now rewrite IH.
      * rewrite IH. intros H. apply in_rev in H. apply nodup_In in H.
        contradiction.
  - now rewrite app_nil_r.
Qed.

(** ** Percentages *)

Lemma split_app_sep (sep : ascii) (t p : string) :
  count_char sep t = 0%nat ->
  split sep (t ++ String sep p) = t :: split sep p.
Proof.
  induction t as [|a t IH]; simpl.
  - intros _. now rewrite Ascii.eqb_refl.
  - destruct (Ascii.eqb a sep); [discriminate|].
    intros H0. now rewrite (IH H0).
Qed.

Lemma is_digit_other (c : ascii) :
  is_digit c = true ->
  is_space c = false /\ lower_char c = c
  /\ Ascii.eqb c ":" = false /\ Ascii.eqb c "-" = false
  /\ Ascii.eqb c "+" = false /\ Ascii.eqb c "i" = false
  /\ Ascii.eqb c "n" = false.
Proof.
  destruct c as [[] [] [] [] [] [] [] []]; intros H; try discriminate H;
    repeat split.
Qed.

Lemma is_digit_value (c : ascii) :
  is_digit c = true -> digit_of c = Some (Z.of_nat (nat_of_ascii c - 48)).
Proof.
  unfold is_digit, digit_of.
  destruct ((48 <=? nat_of_ascii c)%nat && (nat_of_ascii c <=? 57)%nat);
    [reflexivity | discriminate].
Qed.

Lemma digit_run_digits (ds : chars) :
  forall (acc : Z) (n : nat),
    forallb is_digit ds = true ->
    digit_run acc n ds = (decimal_value acc ds, (n + length ds)%nat, []).
Proof.
  induction ds as [|d r IH]; intros acc n H; simpl.
  - now rewrite Nat.add_0_r.
  - simpl in H. apply andb_prop in H. destruct H as [Hd Hr].
    rewrite (is_digit_value d Hd). rewrite (IH _ _ Hr).
    f_equal. f_equal. lia.
Qed.

Lemma lstrip_no_space (cs : chars) :
  match cs with [] => True | c :: _ => is_space c = false end ->
  lstrip cs = cs.
Proof. destruct cs as [|c t]; [reflexivity|]. simpl. now intros ->. Qed.

Lemma strip_digits (ds : chars) :
  forallb is_digit ds = true ->
  list_ascii_of_string (strip (string_of_list_ascii ds)) = ds.
Proof.
  intros H. unfold strip.
  rewrite !list_ascii_of_string_of_list_ascii.
  assert (Hall : forall l, forallb is_digit l = true ->
                   match l with [] => True | c :: _ => is_space c = false end).
  { intros [|c l] Hl; [exact I|]. simpl in Hl. apply andb_prop in Hl.
    now apply is_digit_other. }
  rewrite (lstrip_no_space ds (Hall ds H)).
  unfold rstrip. rewrite lstrip_no_space, rev_involutive; [reflexivity|].
  apply Hall. rewrite forallb_forall in *. intros c Hc. apply H.
  now apply in_rev.
Qed.

(** [float] reads a run of decimal digits as the number they write, or as
    infinity when that number is too large. *)
Lemma py_float_digits (ds : chars) :
  ds <> [] -> forallb is_digit ds = true ->
  py_float (string_of_list_ascii ds)
  = Some (float_of_decimal (inject_Z (decimal_value 0 ds) * inject_Z 10 ^ 0)).
Proof.
  intros Hne H. unfold py_float. rewrite (strip_digits ds H).
  destruct ds as [|c t]; [congruence|].
  assert (Hc : is_digit c = true /\ forallb is_digit t = true)
    by (simpl in H; now apply andb_prop in H).
  destruct Hc as [Hc Ht].
  destruct (is_digit_other c Hc) as [_ [Hlow [_ [Hm [Hp [Hi Hn]]]]]].
  rewrite Hm, Hp. unfold abs_float_value.
  cbn [map string_of_list_ascii]. rewrite Hlow.
  cbn [String.eqb]. rewrite Hi, Hn. cbn [orb].
  unfold float_number, mantissa, digitpart.
  rewrite (is_digit_value c Hc), (digit_run_digits t _ _ Ht).
  cbn [exponent option_map decimal_value]. reflexivity.
Qed.

(** X11: an entry [T:N] whose ticker text holds no colon and whose
    percentage is a run of decimal digits is well formed and is stored
    under the normalised ticker.  Its weight is N/100 when N is below the
    magnitude at which [float] overflows, and is infinite from that
    magnitude on. *)
Theorem integer_percentage (t : string) (ds : list ascii) :
  count_char ":" t = 0%nat ->
  ds <> [] -> forallb is_digit ds = true ->
  exists w,
    parse_item (t ++ String ":" (string_of_list_ascii ds))
    = Some (upper (strip t), w)
    /\ (inject_Z (decimal_value 0 ds) < float_overflow ->
        exists v, w = Fin v /\ v == inject_Z (decimal_value 0 ds) / 100)
    /\ (float_overflow <= inject_Z (decimal_value 0 ds) -> w = PInf).
Proof.
  intros Ht Hne Hds.
  assert (Hcolon : count_char ":" (string_of_list_ascii ds) = 0%nat).
  { clear Hne. induction ds as [|d r IH]; [reflexivity|]. simpl in *.
    apply andb_prop in Hds. destruct Hds as [Hd Hr].
    destruct (is_digit_other d Hd) as [_ [_ [Hc _]]]. rewrite Hc. now apply IH. }
  unfold parse_item. rewrite (split_app_sep ":" t _ Ht).
  rewrite (split_no_sep ":" _ Hcolon).
  assert (Hstrip : strip (string_of_list_ascii ds) = string_of_list_ascii ds).
  { rewrite <- (string_of_list_ascii_of_string (strip _)).
    now rewrite strip_digits. }
  rewrite Hstrip, (py_float_digits ds Hne Hds).
  eexists. split; [reflexivity|].
  change (inject_Z 10 ^ 0) with 1. unfold float_of_decimal.
  set (bound := float_overflow).
  set (N := inject_Z (decimal_value 0 ds)).
  destruct (Qle_bool bound (N * 1)) eqn:E.
  - apply Qle_bool_iff in E. split.
    + intros Hlt. exfalso. lra.
    + intros _. reflexivity.
  - assert (Hlt : ~ bound <= N * 1)
      by (intros H; apply Qle_bool_iff in H; congruence).
    split.
    + intros _. rewrite div_fin_pos by reflexivity.
      eexists. split; [reflexivity|]. now rewrite Qmult_1_r.
    + intros Hge. exfalso. apply Hlt. lra.
Qed.

Lemma integer_percentage_witness :
  exists v,
    parse_item " aapl :40" = Some ("AAPL"%string, Fin v) /\ v == 40 / 100.
Proof.
  assert (Ht : count_char ":" " aapl " = 0%nat) by reflexivity.
  assert (Hne : ["4"; "0"]%char <> []) by discriminate.
  assert (Hds : forallb is_digit ["4"; "0"]%char = true) by reflexivity.
  assert (Hlt : inject_Z (decimal_value 0 ["4"; "0"]%char) < float_overflow)
    by reflexivity.
  destruct (integer_percentage " aapl " ["4"; "0"]%char Ht Hne Hds)
    as [w [Hp [Hfin _]]].
  destruct (Hfin Hlt) as [v [Hw Hv]]. subst w.
  exists v. split; [exact Hp | exact Hv].
Defined.

(** ** Forward filling *)

Lemma ffill_from_idem (xs : series) :
  forall last : fl,
    ffill_from last (ffill_from last xs) = ffill_from last xs.
Proof.
  induction xs as [|x t IH]; intros last; [reflexivity|].
  cbn [ffill_from].
  set (v := if Fl.isnan x then last else x).
  assert (Hv : (if Fl.isnan v then last else v) = v).
  { subst v. destruct x; simpl; try reflexivity.
    destruct last; reflexivity. }
  rewrite Hv. f_equal. apply IH.
Qed.

Lemma ffill_from_defined (xs : series) :
  forall last : fl,
    last <> NaN -> Forall (fun v => v <> NaN) (ffill_from last xs).
Proof.
  induction xs as [|x t IH]; intros last Hl; cbn [ffill_from]; [constructor|].
  assert (Hv : (if Fl.isnan x then last else x) <> NaN)
    by (destruct x; simpl; congruence).
  constructor; [exact Hv | now apply IH].
Qed.

Lemma ffill_from_stays_defined (xs : series) :
  forall (last : fl) (i j : nat),
    (i <= j < length xs)%nat ->
    nth i (ffill_from last xs) NaN <> NaN ->
    nth j (ffill_from last xs) NaN <> NaN.
Proof.
  induction xs as [|x t IH]; intros last i j [Hij Hj] Hi; simpl in Hj; [lia|].
  cbn [ffill_from] in *.
  destruct i as [|i].
  - destruct j as [|j]; [exact Hi|]. cbn [nth] in *.
    assert (H := ffill_from_defined t _ Hi).
    rewrite Forall_forall in H. apply H, nth_In.
    rewrite ffill_from_length. lia.
  - destruct j as [|j]; [lia|]. cbn [nth] in *.
    apply (IH _ i j); [lia | exact Hi].
Qed.

(** X18: forward filling keeps the length of a column and every value the
    column has; the values it leaves missing are all at the top (once a
    row has a value, every row below has one); and filling twice is
    filling once. *)
Theorem ffill_properties (xs : series) :
  length (ffill xs) = length xs
  /\ (forall i x, nth_error xs i = Some x -> x <> NaN ->
        nth_error (ffill xs) i = Some x)
  /\ (forall i j, (i <= j < length xs)%nat ->
        nth i (ffill xs) NaN <> NaN -> nth j (ffill xs) NaN <> NaN)
  /\ ffill (ffill xs) = ffill xs.
Proof.
  unfold ffill. split; [apply ffill_from_length|]. split; [|split].
  - intros i x Hi Hx.
    assert (Hlt : (i < length xs)%nat)
      by (apply nth_error_Some; congruence).
    rewrite (ffill_from_nth NaN xs i Hlt). f_equal.
    destruct i; cbn [last_valid]; rewrite (nth_error_nth xs _ NaN Hi);
      destruct x; simpl; congruence.
  - apply ffill_from_stays_defined.
  - apply ffill_from_idem.
Qed.

(** ** The returns table and the growth curve *)

Lemma cumprod_from_length (xs : series) :
  forall acc, length (cumprod_from acc xs) = length xs.
Proof.
  induction xs as [|x t IH]; intros acc; [reflexivity|].
  cbn [cumprod_from]. destruct (Fl.isnan x); simpl; now rewrite IH.
Qed.

Lemma seq_sorted (a n : nat) : StronglySorted lt (seq a n).
Proof.
  revert a. induction n as [|n IH]; intros a; simpl; constructor.
  - apply IH.
  - apply Forall_forall. intros x Hx. apply in_seq in Hx. lia.
Qed.

Lemma filter_sorted (f : nat -> bool) (l : list nat) :
  StronglySorted lt l -> StronglySorted lt (filter f l).
Proof.
  induction 1 as [|a l Hl IH Ha]; simpl; [constructor|].
  destruct (f a); [|exact IH]. constructor; [exact IH|].
  rewrite Forall_forall in *. intros x Hx. apply filter_In in Hx.
  now apply Ha.
Qed.

Lemma combine_dates {A B : Type} (l : list A) (l' : list B) :
  length l' = length l -> map fst (combine l l') = l.
Proof.
  revert l'. induction l as [|a l IH]; intros [|b l'] H; simpl in *;
    try discriminate; [reflexivity|].
  f_equal. apply IH. lia.
Qed.

(** X13: what [portfolio_performance] returns is aligned: the growth curve
    has exactly the dates of the returns and one value per return, every
    column of the returns has that length too, and the kept dates are
    rows of the price table taken in its order, none twice. *)
Theorem portfolio_outputs_aligned (sqrtQ : Q -> Q)
  (download : string -> price_series) (alloc_dict : dict fl) :
  let cumulative := fst (portfolio_performance sqrtQ download alloc_dict) in
  let n := length (returns_index download alloc_dict) in
  map fst cumulative = returns_index download alloc_dict
  /\ length cumulative = n
  /\ length (portfolio_return download alloc_dict) = n
  /\ Forall (fun col => length col = n) (returns download alloc_dict)
  /\ StronglySorted lt (kept_rows download alloc_dict)
  /\ Forall (fun i => (i < length (index (filled_prices download alloc_dict)))%nat)
            (kept_rows download alloc_dict).
Proof.
  intros cumulative n. subst cumulative n.
  unfold portfolio_performance. cbn [fst].
  assert (Hn : length (returns_index download alloc_dict)
               = length (kept_rows download alloc_dict))
    by (unfold returns_index, take; now rewrite length_map).
  assert (Hr : length (portfolio_return download alloc_dict)
               = length (kept_rows download alloc_dict))
    by (unfold portfolio_return, portfolio_return_of, sum_rows;
        now rewrite length_map, length_seq).
  assert (Hc : length (cumprod (map (Fl.add (Fin 1))
                                    (portfolio_return download alloc_dict)))
               = length (kept_rows download alloc_dict))
    by (unfold cumprod; now rewrite cumprod_from_length, length_map, Hr).
  split; [|split; [|split; [|split; [|split]]]].
  - apply combine_dates. now rewrite Hc, Hn.
  - rewrite length_combine, Hc, Hn. lia.
  - now rewrite Hr, Hn.
  - unfold returns. apply Forall_map, Forall_forall. intros col _.
    unfold take. now rewrite length_map, Hn.
  - unfold kept_rows, complete_rows. apply filter_sorted, seq_sorted.
  - unfold kept_rows, complete_rows. apply Forall_forall. intros i Hi.
    apply filter_In in Hi. destruct Hi as [Hi _]. apply in_seq in Hi.
    unfold filled_prices. cbn [index]. lia.
Qed.

Lemma combine_values {A B : Type} (l : list A) (l' : list B) :
  length l' = length l -> map snd (combine l l') = l'.
Proof.
  revert l'. induction l as [|a l IH]; intros [|b l'] H; simpl in *;
    try discriminate; [reflexivity|].
  f_equal. apply IH. lia.
Qed.

(** The values of the growth curve are the running product of one plus the
    portfolio returns. *)
Lemma cumulative_values (sqrtQ : Q -> Q) (download : string -> price_series)
  (alloc_dict : dict fl) :
  map snd (fst (portfolio_performance sqrtQ download alloc_dict))
  = cumprod (map (Fl.add (Fin 1)) (portfolio_return download alloc_dict)).
Proof.
  unfold portfolio_performance. cbn [fst]. apply combine_values.
  unfold cumprod, returns_index, take, portfolio_return, portfolio_return_of,
    sum_rows.
  now rewrite cumprod_from_length, !length_map, length_seq.
Qed.

Lemma cumprod_from_fin (xs : list Q) :
  forall a : Q,
  exists vs : list Q,
    cumprod_from (Some (Fin a)) (map Fin xs) = map Fin vs
    /\ length vs = length xs
    /\ forall i, (i < length xs)%nat ->
         nth i vs 0 == a * running_product xs i.
Proof.
  induction xs as [|x t IH]; intros a.
  - exists []. repeat split; simpl; intros; lia.
  - destruct (IH (a * x)) as [vs [Hvs [Hlen Hrec]]].
    exists (a * x :: vs). cbn [map cumprod_from Fl.isnan Fl.mul].
    rewrite Hvs. split; [reflexivity|]. split; [simpl; lia|].
    intros [|i] Hi; cbn [nth running_product]; [reflexivity|].
    rewrite Hrec by (simpl in Hi; lia). ring.
Qed.

Lemma cumprod_fin (xs : list Q) :
  exists vs : list Q,
    cumprod (map Fin xs) = map Fin vs
    /\ length vs = length xs
    /\ forall i, (i < length xs)%nat -> nth i vs 0 == running_product xs i.
Proof.
  destruct xs as [|x t].
  - exists []. repeat split; simpl; intros; lia.
  - destruct (cumprod_from_fin t x) as [vs [Hvs [Hlen Hrec]]].
    exists (x :: vs). unfold cumprod. cbn [map cumprod_from Fl.isnan].
    rewrite Hvs. split; [reflexivity|]. split; [simpl; lia|].
    intros [|i] Hi; cbn [nth running_product]; [reflexivity|].
    apply Hrec. simpl in Hi. lia.
Qed.

(** X14: when the portfolio returns are all numbers, the growth curve is
    their running product: its value on the [i]-th kept date is
    [(1 + r0) * ... * (1 + ri)], so it starts at [1 + r0]. *)
Theorem growth_is_running_product (sqrtQ : Q -> Q)
  (download : string -> price_series) (alloc_dict : dict fl)
  (r : list Q) (i : nat) :
  portfolio_return download alloc_dict = map Fin r ->
  (i < length r)%nat ->
  exists v,
    nth_error (map snd (fst (portfolio_performance sqrtQ download alloc_dict)))
              i = Some (Fin v)
    /\ v == running_product (map (fun x => 1 + x) r) i.
Proof.
  intros Hr Hi. rewrite cumulative_values, Hr, map_map.
  change (map (fun x => Fl.add (Fin 1) (Fin x)) r)
    with (map (fun x => Fin (1 + x)) r).
  rewrite <- (map_map (fun x => 1 + x) Fin).
  destruct (cumprod_fin (map (fun x => 1 + x) r)) as [vs [Hvs [Hlen Hrec]]].
  rewrite Hvs. rewrite length_map in Hlen, Hrec.
  exists (nth i vs 0). split; [apply nth_error_map_fin; lia | now apply Hrec].
Qed.

Lemma growth_is_running_product_witness :
  exists v,
    nth_error
      (map snd (fst (portfolio_performance sqrt_approx download_five alloc_AB)))
      0 = Some (Fin v)
    /\ v == 1 + (0 + (0 + (11 / 10 - 1) * (1 # 2)) + (19 / 20 - 1) * (1 # 2)).
Proof.
  assert (Hr : portfolio_return download_five alloc_AB
               = map Fin
                   [0 + (0 + (11 / 10 - 1) * (1 # 2)) + (19 / 20 - 1) * (1 # 2);
                    0 + (0 + (12 / 11 - 1) * (1 # 2)) + (21 / 19 - 1) * (1 # 2);
                    0 + (0 + (11 / 12 - 1) * (1 # 2)) + (22 / 21 - 1) * (1 # 2);
                    0 + (0 + (10 / 11 - 1) * (1 # 2)) + (23 / 22 - 1) * (1 # 2)])
    by reflexivity.
  assert (Hi : (0 < 4)%nat) by lia.
  exact (growth_is_running_product sqrt_approx download_five alloc_AB _ 0 Hr Hi).
Defined.

Lemma ffill_from_fin (qs : list Q) (last : fl) :
  ffill_from last (map Fin qs) = map Fin qs.
Proof.
  revert last. induction qs as [|q t IH]; intros last; [reflexivity|].
  cbn [map ffill_from Fl.isnan]. now rewrite IH.
Qed.

Lemma simple_returns_length (prev : Q) (qs : list Q) :
  length (simple_returns prev qs) = length qs.
Proof.
  revert prev. induction qs as [|q t IH]; intros prev; simpl; auto.
Qed.

Lemma zip_pct_fin (qs : list Q) :
  forall prev : Q,
    0 < prev -> Forall (fun q => 0 < q) qs ->
    zip_with (fun cur prev => Fl.sub (Fl.div cur prev) (Fin 1))
             (map Fin qs) (map Fin (prev :: qs))
    = map Fin (simple_returns prev qs).
Proof.
  induction qs as [|q t IH]; intros prev Hprev Hall; [reflexivity|].
  inversion Hall as [|? ? Hq Ht]; subst.
  cbn [map zip_with simple_returns]. rewrite div_fin_pos by exact Hprev.
  f_equal. apply (IH q Hq Ht).
Qed.

Lemma filter_all {A : Type} (f : A -> bool) (l : list A) :
  (forall x, In x l -> f x = true) -> filter f l = l.
Proof.
  induction l as [|a l IH]; intros H; [reflexivity|]. simpl.
  rewrite (H a (or_introl eq_refl)). f_equal. apply IH.
  intros x Hx. apply H. now right.
Qed.

Lemma map_nth_seq0 {A : Type} (d : A) (l : list A) :
  map (fun i => nth i l d) (seq 0 (length l)) = l.
Proof.
  induction l as [|b l IH]; [reflexivity|].
  cbn [length seq map nth]. f_equal.
  rewrite <- seq_shift, map_map. exact IH.
Qed.

Lemma map_nth_seq {A : Type} (d : A) (l : list A) (a : A) :
  map (fun i => nth i (a :: l) d) (seq 1 (length l)) = l.
Proof.
  rewrite <- seq_shift, map_map. apply map_nth_seq0.
Qed.

(** The returns of a portfolio of one security held with weight 1: the
    simple returns of its closes. *)
Lemma single_asset_returns (download : string -> price_series) (t : string)
  (q0 : Q) (qs : list Q) :
  map snd (download t) = map Fin (q0 :: qs) ->
  Forall (fun q => 0 < q) (q0 :: qs) ->
  returns_index download [(t, Fin 1)] = tl (map fst (download t))
  /\ portfolio_return download [(t, Fin 1)]
     = map Fin (map (fun r => 0 + r * 1) (simple_returns q0 qs)).
Proof.
  intros Hs Hpos. inversion Hpos as [|? ? Hq0 Hqs]; subst.
  assert (Hbuild : build_prices download [(t, Fin 1)]
                   = {| index := map fst (download t);
                        columns := [(t, map Fin (q0 :: qs))] |}).
  { unfold build_prices. cbn [keys map fst fold_left].
    unfold set_column. cbn [index empty_frame columns].
    destruct (download t) as [|p s'] eqn:Hd; [discriminate Hs|].
    cbn [map dict_set]. cbn [map] in Hs. now rewrite Hs. }
  assert (Hlen : length (map fst (download t)) = S (length qs)).
  { rewrite length_map, <- (length_map snd), Hs. simpl.
    now rewrite length_map. }
  assert (Hraw : raw_returns download [(t, Fin 1)]
                 = [NaN :: map Fin (simple_returns q0 qs)]).
  { unfold raw_returns, filled_prices. rewrite Hbuild.
    cbn [columns map fst snd].
    change (Fin q0 :: map Fin qs) with (map Fin (q0 :: qs)).
    unfold ffill. rewrite ffill_from_fin.
    change (map Fin (q0 :: qs)) with (Fin q0 :: map Fin qs) at 1.
    cbn [pct_change]. f_equal. f_equal.
    apply (zip_pct_fin qs q0 Hq0 Hqs). }
  assert (Hkept : kept_rows download [(t, Fin 1)] = seq 1 (length qs)).
  { unfold kept_rows, complete_rows. rewrite Hraw, Hbuild. cbn [index].
    rewrite Hlen. cbn [seq filter row map nth forallb Fl.notna Fl.isnan negb andb].
    apply filter_all. intros i Hi. apply in_seq in Hi.
    destruct i as [|i]; [lia|]. cbn [row map nth forallb].
    rewrite (nth_indep _ NaN (Fin 0))
      by (rewrite length_map, simple_returns_length; lia).
    now rewrite (map_nth Fin). }
  split.
  - unfold returns_index, take. rewrite Hkept, Hbuild. cbn [index].
    destruct (map fst (download t)) as [|d ds]; [discriminate Hlen|].
    cbn [tl]. simpl in Hlen. injection Hlen as Hlen. rewrite <- Hlen.
    apply map_nth_seq.
  - unfold portfolio_return, portfolio_return_of, returns, take.
    rewrite Hkept, Hraw, length_seq. cbn [map].
    replace (seq 1 (length qs))
      with (seq 1 (length (map Fin (simple_returns q0 qs))))
      by (now rewrite length_map, simple_returns_length).
    rewrite map_nth_seq.
    unfold weights_of. cbn [keys map fst dict_get]. rewrite String.eqb_refl.
    cbn [mul_columns]. unfold sum_rows.
    rewrite map_map.
    change (map (fun x => Fl.mul (Fin x) (Fin 1)) (simple_returns q0 qs))
      with (map (fun x => Fin (x * 1)) (simple_returns q0 qs)).
    rewrite <- (map_map (fun x => x * 1) Fin).
    rewrite <- (map_map (fun r => r * 1) (fun x => 0 + x)).
    set (l := map (fun r => r * 1) (simple_returns q0 qs)).
    assert (Hl : length l = length qs)
      by (subst l; now rewrite length_map, simple_returns_length).
    rewrite <- Hl.
    replace (map Fin (map (fun x => 0 + x) l))
      with (map Fin (map (fun x => 0 + x)
                         (map (fun i => nth i l 0) (seq 0 (length l)))))
      by (now rewrite map_nth_seq0).
    rewrite !map_map. apply map_ext_in. intros i Hi. apply in_seq in Hi.
    cbn [row map].
    rewrite (nth_indep _ NaN (Fin 0)) by (rewrite length_map; lia).
    rewrite (map_nth Fin). reflexivity.
Qed.

(** The product of the gross returns of a run of prices telescopes. *)
Lemma gross_returns_telescope (qs : list Q) :
  forall (q0 : Q) (i : nat),
    0 < q0 -> Forall (fun q => 0 < q) qs -> (i < length qs)%nat ->
    running_product
      (map (fun x => 1 + x)
           (map (fun r => 0 + r * 1) (simple_returns q0 qs))) i
    == nth i qs 0 / q0.
Proof.
  induction qs as [|q t IH]; intros q0 i Hq0 Hall Hi; simpl in Hi; [lia|].
  inversion Hall as [|? ? Hq Ht]; subst.
  cbn [simple_returns map running_product].
  destruct i as [|i].
  - cbn [nth]. field. lra.
  - cbn [nth]. rewrite (IH q i Hq Ht) by lia. field. split; lra.
Qed.

(** X15: for a portfolio of one security held with weight 1, with positive
    closes and no gap, the growth curve is the price relative to the first
    close: it has the dates after the first and on the [i]-th of them the
    value [close[i+1] / close[0]]. *)
Theorem single_asset_growth (sqrtQ : Q -> Q)
  (download : string -> price_series) (t : string) (q0 : Q) (qs : list Q)
  (i : nat) :
  map snd (download t) = map Fin (q0 :: qs) ->
  Forall (fun q => 0 < q) (q0 :: qs) ->
  (i < length qs)%nat ->
  let cumulative := fst (portfolio_performance sqrtQ download [(t, Fin 1)]) in
  map fst cumulative = tl (map fst (download t))
  /\ exists v,
       nth_error (map snd cumulative) i = Some (Fin v)
       /\ v == nth i qs 0 / q0.
Proof.
  intros Hs Hpos Hi cumulative. subst cumulative.
  destruct (single_asset_returns download t q0 qs Hs Hpos) as [Hidx Hret].
  inversion Hpos as [|? ? Hq0 Hqs]; subst.
  split.
  - unfold portfolio_performance. cbn [fst]. rewrite <- Hidx.
    apply combine_dates.
    unfold cumprod, returns_index, take, portfolio_return, portfolio_return_of,
      sum_rows.
    now rewrite cumprod_from_length, !length_map, length_seq.
  - rewrite cumulative_values, Hret, map_map.
    change (map (fun x => Fl.add (Fin 1) (Fin x))
                (map (fun r => 0 + r * 1) (simple_returns q0 qs)))
      with (map (fun x => Fin (1 + x))
                (map (fun r => 0 + r * 1) (simple_returns q0 qs))).
    rewrite <- (map_map (fun x => 1 + x) Fin).
    destruct (cumprod_fin
                (map (fun x => 1 + x)
                     (map (fun r => 0 + r * 1) (simple_returns q0 qs))))
      as [vs [Hvs [Hlen Hrec]]].
    rewrite Hvs. rewrite !length_map, simple_returns_length in Hlen, Hrec.
    exists (nth i vs 0). split; [apply nth_error_map_fin; lia|].
    rewrite (Hrec i Hi). now apply gross_returns_telescope.
Qed.

Lemma single_asset_growth_witness :
  exists v,
    nth_error
      (map snd
         (fst (portfolio_performance sqrt_approx
                 (fun _ => [(1%Z, Fin 10); (2%Z, Fin 11); (3%Z, Fin 12)])
                 [("A"%string, Fin 1)]))) 1
    = Some (Fin v)
    /\ v == 12 / 10.
Proof.
  assert (Hs : map snd [(1%Z, Fin 10); (2%Z, Fin 11); (3%Z, Fin 12)]
               = map Fin [10; 11; 12]) by reflexivity.
  assert (Hpos : Forall (fun q => 0 < q) [10; 11; 12])
    by (repeat constructor).
  assert (Hi : (1 < length [11; 12])%nat) by (simpl; lia).
  exact (proj2 (single_asset_growth sqrt_approx
                  (fun _ => [(1%Z, Fin 10); (2%Z, Fin 11); (3%Z, Fin 12)])
                  "A" 10 [11; 12] 1 Hs Hpos Hi)).
Defined.

(** ** Edge cases of the metrics *)

Lemma observations_notna (xs : series) (x : fl) :
  In x (observations xs) -> Fl.notna x = true.
Proof. unfold observations. intros H. now apply filter_In in H. Qed.

(** With fewer than two observations the sample standard deviation is
    not-a-number. *)
Lemma std_short (sqrtQ : Q -> Q) (xs : series) :
  (length (observations xs) <= 1)%nat -> std sqrtQ xs = NaN.
Proof.
  intros Hlen. unfold std.
  destruct (observations xs) as [|x [|y r]] eqn:Hobs; [reflexivity | |simpl in Hlen; lia].
  assert (Hx : Fl.notna x = true)
    by (apply (observations_notna xs); rewrite Hobs; now left).
  unfold mean, observations. cbn [filter]. rewrite Hx.
  destruct x as [q| | |]; try discriminate Hx; try reflexivity.
  assert (Hm : Fl.div (Fl.sum [Fin q]) (Fl.of_nat (length [Fin q]))
               = Fin ((0 + q) / 1)) by reflexivity.
  rewrite Hm.
  change (fsqrt sqrtQ
            (Fl.div (Fin (0 + (q - (0 + q) / 1) * (q - (0 + q) / 1))) (Fin 0))
          = NaN).
  assert (Hz : 0 + (q - (0 + q) / 1) * (q - (0 + q) / 1) == 0) by field.
  apply Qeq_alt in Hz. unfold Fl.div. change (0 ?= 0) with Eq. cbn iota.
  rewrite Hz. reflexivity.
Qed.

(** X16: with fewer than two portfolio returns (at most two usable price
    rows) the volatility is not-a-number, and so is the ratio: the zero
    guard does not catch it, because not-a-number is different from 0. *)
Theorem sharpe_needs_two_returns (sqrtQ : Q -> Q)
  (download : string -> price_series) (alloc_dict : dict fl) :
  (length (portfolio_return download alloc_dict) <= 1)%nat ->
  let m := snd (portfolio_performance sqrtQ download alloc_dict) in
  volatility m = NaN /\ sharpe_ratio m = NaN.
Proof.
  intros Hlen m. subst m. unfold portfolio_performance, metrics_of.
  cbn [snd volatility sharpe_ratio].
  assert (Hs : std sqrtQ (portfolio_return download alloc_dict) = NaN).
  { apply std_short.
    assert (H := filter_length_le Fl.notna
                   (portfolio_return download alloc_dict)).
    unfold observations. lia. }
  rewrite Hs. split; [reflexivity|].
  cbn [Fl.neb Fl.eqb Fl.compare negb].
  destruct (mean (portfolio_return download alloc_dict)); reflexivity.
Qed.

Lemma sharpe_needs_two_returns_witness :
  sharpe_ratio
    (snd (portfolio_performance sqrt_approx
            (fun _ => [(1%Z, Fin 10); (2%Z, Fin 11)]) alloc_AB))
  = NaN.
Proof.
  assert (Hlen : (length (portfolio_return
                            (fun _ => [(1%Z, Fin 10); (2%Z, Fin 11)])
                            alloc_AB) <= 1)%nat)
    by (vm_compute; lia).
  exact (proj2 (sharpe_needs_two_returns sqrt_approx
                  (fun _ => [(1%Z, Fin 10); (2%Z, Fin 11)]) alloc_AB Hlen)).
Defined.

Lemma of_nat_succ (n : nat) :
  inject_Z (Z.of_nat (S n)) == 1 + inject_Z (Z.of_nat n).
Proof.
  rewrite Nat2Z.inj_succ. unfold Z.succ. rewrite inject_Z_plus. ring.
Qed.

Lemma Qsum_const (qs : list Q) (c : Q) :
  Forall (fun q => q == c) qs ->
  Qsum qs == inject_Z (Z.of_nat (length qs)) * c.
Proof.
  induction 1 as [|q qs Hq _ IH].
  - simpl. ring.
  - cbn [length]. rewrite of_nat_succ. unfold Qsum in *. simpl.
    rewrite IH, Hq. ring.
Qed.

Lemma Qsum_zero (g : Q -> Q) (qs : list Q) :
  Forall (fun q => g q == 0) qs -> Qsum (map g qs) == 0.
Proof.
  induction 1 as [|q qs Hq _ IH]; [reflexivity|].
  unfold Qsum in *. simpl. rewrite IH, Hq. ring.
Qed.

Lemma Qmean_const (qs : list Q) (c : Q) :
  qs <> [] -> Forall (fun q => q == c) qs -> Qmean qs == c.
Proof.
  intros Hne Hall. unfold Qmean. rewrite (Qsum_const qs c Hall).
  assert (Hpos : 0 < inject_Z (Z.of_nat (length qs)))
    by (apply of_nat_pos; destruct qs; [congruence | simpl; lia]).
  field. lra.
Qed.

Lemma Qvariance_const (qs : list Q) (c : Q) :
  qs <> [] -> Forall (fun q => q == c) qs -> Qvariance qs == 0.
Proof.
  intros Hne Hall. unfold Qvariance.
  assert (Hm := Qmean_const qs c Hne Hall).
  rewrite Qsum_zero; [unfold Qdiv; ring|].
  eapply Forall_impl; [|exact Hall]. intros q Hq. cbv beta in Hq |- *.
  rewrite Hm, Hq. ring.
Qed.

Lemma weighted_sum_zero (W rs : list Q) :
  Forall (fun r => r == 0) rs -> weighted_sum W rs == 0.
Proof.
  intros H. revert W. induction H as [|r rs Hr _ IH]; intros [|w W]; simpl;
    try reflexivity.
  rewrite IH, Hr. ring.
Qed.

Lemma nth_zero (c : list Q) (i : nat) :
  Forall (fun r => r == 0) c -> nth i c 0 == 0.
Proof.
  intros H. revert i. induction H as [|r c Hr _ IH]; intros [|i]; simpl;
    try reflexivity; auto.
Qed.

(** With finite weights and a returns table that holds only zeros, every
    portfolio return is a number equal to 0. *)
Lemma zero_returns_portfolio (alloc_dict : dict fl) (W : list Q)
  (rets : list (list Q)) (n : nat) :
  weights_of alloc_dict = map Fin W ->
  Forall (fun c => length c = n) rets ->
  Forall (Forall (fun r => r == 0)) rets ->
  exists qs : list Q,
    portfolio_return_of n (map (map Fin) rets) alloc_dict = map Fin qs
    /\ length qs = n
    /\ Forall (fun q => q == 0) qs.
Proof.
  intros HW Hcols Hzero.
  exists (map (fun i =>
                 fold_left Qplus
                   (map (fun cw => nth i (fst cw) 0 * snd cw) (combine rets W))
                   0)
              (seq 0 n)).
  split; [|split].
  - unfold portfolio_return_of, sum_rows. rewrite HW, map_map.
    apply map_ext_in. intros i Hi. apply in_seq in Hi.
    rewrite row_mul_columns
      by (eapply Forall_impl; [|exact Hcols]; simpl; intros; lia).
    now rewrite observations_fin, sum_fin.
  - now rewrite length_map, length_seq.
  - apply Forall_map, Forall_forall. intros i _.
    rewrite fold_left_Qsum, Qplus_0_l, products_weighted_sum.
    apply weighted_sum_zero. apply Forall_map.
    eapply Forall_impl; [|exact Hzero]. intros c Hc. now apply nth_zero.
Qed.

(** X17: when the prices do not move, so that every entry of the returns
    table is 0, on at least two kept dates and with finite weights (and
    the square root of 0 is 0), the mean return is 0, the volatility is 0
    and the ratio takes its guarded value, exactly 0. *)
Theorem sharpe_zero_returns (sqrtQ : Q -> Q)
  (download : string -> price_series) (alloc_dict : dict fl)
  (W : list Q) (rets : list (list Q)) :
  (forall x, x == 0 -> sqrtQ x == 0) ->
  weights_of alloc_dict = map Fin W ->
  returns download alloc_dict = map (map Fin) rets ->
  Forall (Forall (fun r => r == 0)) rets ->
  (2 <= length (kept_rows download alloc_dict))%nat ->
  let m := snd (portfolio_performance sqrtQ download alloc_dict) in
  average_daily_return m =f= Fin 0
  /\ volatility m =f= Fin 0
  /\ sharpe_ratio m = Fin 0.
Proof.
  intros Hsqrt HW Hret Hzero Hlen m. subst m.
  assert (Hcols : Forall (fun c => length c = length (kept_rows download alloc_dict))
                         rets).
  { assert (H : Forall (fun c => length c
                                  = length (kept_rows download alloc_dict))
                       (returns download alloc_dict)).
    { unfold returns. apply Forall_map, Forall_forall. intros c _.
      unfold take. now rewrite length_map. }
    rewrite Hret in H. apply Forall_map in H.
    eapply Forall_impl; [|exact H]. intros c Hc. cbv beta in Hc.
    now rewrite length_map in Hc. }
  destruct (zero_returns_portfolio alloc_dict W rets _ HW Hcols Hzero)
    as [qs [Hqs [Hn Hall]]].
  unfold portfolio_performance, metrics_of, portfolio_return.
  cbn [snd average_daily_return volatility sharpe_ratio].
  rewrite Hret, Hqs.
  assert (Hlen2 : (2 <= length qs)%nat) by lia.
  assert (Hne : qs <> [])
    by (intros E; rewrite E in Hlen2; simpl in Hlen2; lia).
  destruct (mean_std_fin sqrtQ qs Hlen2) as [a [v [Ha [Ham [Hv Hvar]]]]].
  rewrite Ha, Hv.
  assert (Hz : sqrtQ v == 0)
    by (apply Hsqrt; rewrite Hvar; now apply (Qvariance_const qs 0)).
  split; [simpl; rewrite Ham; now apply Qmean_const|].
  split; [exact Hz|].
  assert (He : Fl.eqb (Fin (sqrtQ v)) (Fin 0) = true) by now apply eqb_zero.
  unfold Fl.neb. now rewrite He.
Qed.

Lemma sqrt_approx_zero (x : Q) : x == 0 -> sqrt_approx x == 0.
Proof.
  intros Hx. unfold Qeq in Hx. simpl in Hx.
  assert (Hn : Qnum x = 0%Z) by lia.
  unfold sqrt_approx. rewrite Hn, Z.mul_0_l, Zdiv_0_l. reflexivity.
Qed.

Lemma sharpe_zero_returns_witness :
  sharpe_ratio (snd (portfolio_performance sqrt_approx download_flat alloc_AB))
  = Fin 0.
Proof.
  pose (r := 10 / 10 - 1).
  assert (HW : weights_of alloc_AB = map Fin [1 # 2; 1 # 2]) by reflexivity.
  assert (Hret : returns download_flat alloc_AB
                 = map (map Fin) [[r; r]; [r; r]]) by reflexivity.
  assert (Hzero : Forall (Forall (fun q => q == 0)) [[r; r]; [r; r]])
    by (repeat constructor).
  assert (Hlen : (2 <= length (kept_rows download_flat alloc_AB))%nat)
    by (vm_compute; lia).
  exact (proj2 (proj2 (sharpe_zero_returns sqrt_approx download_flat
                         alloc_AB [1 # 2; 1 # 2] [[r; r]; [r; r]]
                         sqrt_approx_zero HW Hret Hzero Hlen))).
Defined.

(** ** A weight that is not a number *)

Lemma weights_of_NoDup (d : dict fl) :
  NoDup (keys d) -> weights_of d = map snd d.
Proof.
  intros Hnd. unfold weights_of, keys. rewrite map_map.
  apply map_ext_in. intros [k v] Hin. cbn [fst snd].
  now rewrite (dict_In_get d k v Hnd Hin).
Qed.

Lemma mul_columns_app (cols1 cols2 : list series) (W1 W2 : list fl) :
  length cols1 = length W1 ->
  mul_columns (cols1 ++ cols2) (W1 ++ W2)
  = mul_columns cols1 W1 ++ mul_columns cols2 W2.
Proof.
  revert W1. induction cols1 as [|c cols1 IH]; intros [|w W1] H;
    simpl in *; try discriminate; [reflexivity|].
  f_equal. apply IH. lia.
Qed.

Lemma nan_column_row (c : series) (i : nat) :
  nth i (map (fun r => Fl.mul r NaN) c) NaN = NaN.
Proof.
  revert i. induction c as [|x c IH]; intros [|i]; simpl; auto.
  destruct x; reflexivity.
Qed.

(** X19: a security whose weight is not a number (an entry such as
    [T:nan] is well formed) drops out of the portfolio return: the row sums
    pass over its products, so the return is the one of the portfolio
    without that security, not an undefined value. *)
Theorem nan_weight_dropped (n : nat) (cols1 cols2 : list series) (c : series)
  (d1 d2 : dict fl) (t : string) :
  NoDup (keys (d1 ++ (t, NaN) :: d2)) ->
  length cols1 = length d1 ->
  portfolio_return_of n (cols1 ++ c :: cols2) (d1 ++ (t, NaN) :: d2)
  = portfolio_return_of n (cols1 ++ cols2) (d1 ++ d2).
Proof.
  intros Hnd Hlen. unfold portfolio_return_of.
  assert (Hnd' : NoDup (keys (d1 ++ d2))).
  { rewrite keys_app in *. cbn [keys map fst] in Hnd.
    now apply NoDup_remove_1 in Hnd. }
  rewrite (weights_of_NoDup _ Hnd), (weights_of_NoDup _ Hnd'), !map_app.
  cbn [map snd].
  rewrite !mul_columns_app by (now rewrite length_map).
  cbn [mul_columns]. unfold sum_rows. apply map_ext. intros i.
  unfold row, observations. rewrite !map_app, !filter_app. cbn [map filter].
  now rewrite nan_column_row.
Qed.

Lemma nan_weight_dropped_witness :
  parse_allocations "A:50,B:nan" = [("A"%string, Fin (50 / 100)); ("B"%string, NaN)]
  /\ portfolio_return_of 2 [[Fin 1; Fin 2]; [Fin 3; Fin 4]]
                         [("A"%string, Fin (50 / 100)); ("B"%string, NaN)]
     = portfolio_return_of 2 [[Fin 1; Fin 2]] [("A"%string, Fin (50 / 100))].
Proof.
  split; [reflexivity|].
  assert (Hnd : NoDup (keys ([("A"%string, Fin (50 / 100))]
                             ++ ("B"%string, NaN) :: [])))
    by (repeat constructor; simpl; [intros [H | []]; discriminate H | tauto]).
  assert (Hlen : length [[Fin 1; Fin 2]] = length [("A"%string, Fin (50 / 100))])
    by reflexivity.
  exact (nan_weight_dropped 2 [[Fin 1; Fin 2]] [] [Fin 3; Fin 4]
           [("A"%string, Fin (50 / 100))] [] "B" Hnd Hlen).
Defined.

(** ** A ticker without data *)

Lemma filter_none {A : Type} (f : A -> bool) (l : list A) :
  (forall x, In x l -> f x = false) -> filter f l = [].
Proof.
  induction l as [|a l IH]; intros H; [reflexivity|]. simpl.
  rewrite (H a (or_introl eq_refl)). apply IH.
  intros x Hx. apply H. now right.
Qed.

Lemma reindex_empty_nth (idx : list date) (k : nat) :
  nth k (reindex [] idx) NaN = NaN.
Proof.
  unfold reindex. revert k. induction idx as [|d idx IH]; intros [|k];
    simpl; auto.
Qed.

(** X20: one ticker of the map for which the supplier has no close at all
    empties the whole result: its column is missing on every date, so
    every date is dropped, the growth curve is empty and the three metrics
    are not-a-number. *)
Theorem ticker_without_data (sqrtQ : Q -> Q)
  (download : string -> price_series) (alloc_dict : dict fl) (t : string) :
  NoDup (keys alloc_dict) ->
  (forall t, NoDup (map fst (download t))) ->
  In t (keys alloc_dict) -> download t = [] ->
  kept_rows download alloc_dict = []
  /\ fst (portfolio_performance sqrtQ download alloc_dict) = []
  /\ snd (portfolio_performance sqrtQ download alloc_dict)
     = {| average_daily_return := NaN; volatility := NaN;
          sharpe_ratio := NaN |}.
Proof.
  intros Hnd Hdates Hin Hempty.
  assert (Hcol := filled_column download alloc_dict t Hnd Hdates Hin).
  rewrite Hempty in Hcol.
  set (idx := index (filled_prices download alloc_dict)) in *.
  assert (Hkept : kept_rows download alloc_dict = []).
  { unfold kept_rows, complete_rows. apply filter_none. intros i _.
    destruct (forallb Fl.notna (row (raw_returns download alloc_dict) i))
      eqn:Hall; [|reflexivity].
    exfalso. rewrite forallb_forall in Hall.
    assert (Hx : Fl.notna (nth i (pct_change (ffill (reindex [] idx))) NaN)
                 = true).
    { apply Hall. unfold row, raw_returns. rewrite map_map.
      apply in_map_iff. exists (t, ffill (reindex [] idx)).
      split; [reflexivity | now apply dict_get_In_pair]. }
    apply pct_change_notna in Hx. destruct Hx as [_ [Hcur _]].
    destruct (Nat.lt_ge_cases i (length (ffill (reindex [] idx)))) as [Hlt|Hge].
    - rewrite filled_length in Hlt.
      rewrite (nth_error_nth _ _ NaN (filled_nth [] idx i Hlt)) in Hcur.
      unfold last_observed in Hcur.
      rewrite last_valid_none in Hcur; [discriminate|].
      intros k _. apply reindex_empty_nth.
    - rewrite nth_overflow in Hcur by exact Hge. discriminate. }
  split; [exact Hkept|].
  assert (Hret : portfolio_return download alloc_dict = [])
    by (unfold portfolio_return; rewrite Hkept; reflexivity).
  unfold portfolio_performance. rewrite Hret. cbn [fst snd map cumprod].
  split; [unfold returns_index; rewrite Hkept; reflexivity|].
  unfold metrics_of. rewrite std_short by (simpl; lia). reflexivity.
Qed.

Lemma ticker_without_data_witness :
  fst (portfolio_performance sqrt_approx
         (fun t => if String.eqb t "A" then sample_download t else [])
         alloc_AB) = [].
Proof.
  assert (Hdates : forall t,
             NoDup (map fst ((fun t => if String.eqb t "A"
                                       then sample_download t else []) t))).
  { intros t. cbv beta. destruct (String.eqb t "A");
      [apply download_AB_dates | constructor]. }
  assert (Hin : In "B"%string (keys alloc_AB)) by (right; left; reflexivity).
  exact (proj1 (proj2 (ticker_without_data sqrt_approx _ alloc_AB "B"
                         alloc_AB_keys Hdates Hin eq_refl))).
Defined.

(** ** Moving averages stay within the closes *)




